(** * TOA.py: regular grammar to epsilon-NFA, and NFA simulation

    A shallow embedding of [src/TOA.py]:
    - Python [str] values are sequences of Unicode code points;
    - Python [set]s are [gset]s, the transition [dict] is a [gmap];
    - the grammar [dict] is an insertion-ordered association list;
    - raised exceptions are values of an error monad;
    - methods of the [NFA] class run in a state monad over the object and
      the standard output. *)

From Stdlib Require Import String Ascii.
From stdpp Require Import base decidable option list relations sets gmap fin_maps fin_sets.

Local Open Scope N_scope.

(** * The program *)

(** ** Python strings *)

(** A Python [str] is a sequence of code points; a character is a [str] of
    length one. *)
Abbreviation codepoint := N (only parsing).
Abbreviation str := (list N) (only parsing).

(** String literals of this development (ASCII only). *)
Definition lit (s : string) : str := N_of_ascii <$> list_ascii_of_string s.

(** U+03B5, GREEK SMALL LETTER EPSILON. *)
Definition EPSILON_CHAR : str := [949].

(** [str.isspace] for one character, after CPython's whitespace table. *)
Definition isspace (c : codepoint) : bool :=
  ((9 <=? c) && (c <=? 13)) || ((28 <=? c) && (c <=? 32))
  || (c =? 133) || (c =? 160) || (c =? 5760)
  || ((8192 <=? c) && (c <=? 8202))
  || (c =? 8232) || (c =? 8233) || (c =? 8239) || (c =? 8287) || (c =? 12288).

Fixpoint lstrip (s : str) : str :=
  match s with
  | c :: s' => if isspace c then lstrip s' else s
  | [] => []
  end.

(** [s.strip()] *)
Definition strip (s : str) : str := rev (lstrip (rev (lstrip s))).

(** [s.startswith(p)] *)
Fixpoint startswith (p s : str) : bool :=
  match p, s with
  | [], _ => true
  | a :: p', b :: s' => (a =? b) && startswith p' s'
  | _ :: _, [] => false
  end.

(** [s.split(sep, 1)] for a non-empty [sep]: [None] when [sep] does not occur
    in [s] (Python then returns the one-element list [[s]]), otherwise the
    text before and after the first occurrence. *)
Fixpoint split_once (sep s : str) : option (str * str) :=
  if startswith sep s then Some ([], drop (length sep) s)
  else match s with
       | [] => None
       | c :: s' =>
           match split_once sep s' with
           | Some (h, b) => Some (c :: h, b)
           | None => None
           end
       end.

(** [s.split(c)] for a one-character separator: never the empty list. *)
Fixpoint split_char (c : codepoint) (s : str) : list str :=
  match s with
  | [] => [[]]
  | x :: s' =>
      if x =? c then [] :: split_char c s'
      else match split_char c s' with
           | p :: ps => (x :: p) :: ps
           | [] => [[x]]
           end
  end.

(** [str.lower] on the ASCII range.  Python's full Unicode case mapping is a
    table of the interpreter, not of this repository: the parser below takes
    the lowering function as a parameter, and the concrete scenarios
    instantiate it with this one, which agrees with [str.lower] on ASCII
    text. *)
Definition ascii_lower (s : str) : str :=
  (λ c, if (65 <=? c) && (c <=? 90) then c + 32 else c) <$> s.

Local Close Scope N_scope.

(** ** Exceptions *)

(** What an error message reports; one constructor per [raise] of the
    source, in source order.  The symbol named by the last message is the
    first offending one in the iteration order of the transition [dict],
    which the [gmap] does not keep: the message is modelled without it. *)
Inductive message :=
  | EmptyNonTerminals
  | StartNotDeclared (start_symbol : str)
  | NotDisjoint (overlap : gset str)
  | MissingArrow (line_num : nat) (line : str)
  | EmptyHead (line_num : nat)
  | HeadNotDeclared (line_num : nat) (head : str)
  | EmptyProduction (line_num : nat) (head : str)
  | TerminalNotDeclared (line_num : nat) (terminal prod head : str)
  | NonTerminalNotDeclared (line_num : nat) (next_non_terminal prod head : str)
  | InvalidProduction (line_num : nat) (prod head : str)
  | UnexpectedProduction (line_num : nat) (prod head : str)
  | MarkerClash
  | UnexpectedParsedProduction (terminal next_state : option str) (head_state : str)
  | StartNotState (start_state : str)
  | AcceptNotSubset (accept_states : gset str)
  | SymbolNotInAlphabet.

Inductive exn :=
  | ValueError (m : message)
  | RuntimeError (m : message).

Inductive result (A : Type) :=
  | Ok (a : A)
  | Raise (e : exn).
Arguments Ok {A} a.
Arguments Raise {A} e.

(** Sequencing: an exception skips what follows.  [x ← r; k] below is
    stdpp's notation for this. *)
#[export] Instance result_bind : MBind result := λ A B k r,
  match r with
  | Ok a => k a
  | Raise e => Raise e
  end.

(** A loop whose body may raise: the first exception leaves the loop. *)
Fixpoint rfold {A B} (body : B → A → result B) (acc : B) (l : list A) : result B :=
  match l with
  | [] => Ok acc
  | x :: l' => acc' ← body acc x; rfold body acc' l'
  end.

(** ** The grammar parser *)

(** A production is a pair (terminal or [None], next non-terminal or
    [None]). *)
Abbreviation production := (option str * option str)%type (only parsing).

(** The grammar [dict]: heads in insertion order, each with its list of
    productions. *)
Abbreviation grammar := (list (str * list (option str * option str))) (only parsing).

(** [grammar[head].append(p)] on a [defaultdict(list)]. *)
Fixpoint dict_append (g : grammar) (head : str) (p : production) : grammar :=
  match g with
  | [] => [(head, [p])]
  | (h, ps) :: g' =>
      if decide (h = head) then (h, ps ++ [p]) :: g'
      else (h, ps) :: dict_append g' head p
  end.

Definition ARROW : str := lit "->".
Definition BAR : codepoint := 124%N.
Definition HASH : str := lit "#".

Section Parser.

(** Python's [str.lower]. *)
Variable lower : str → str.

Variables declared_non_terminals declared_terminals : gset str.

(** The body of [for prod in productions]. *)
Definition parse_production (line_num : nat) (head : str)
    (g : grammar) (prod : str) : result grammar :=
  if bool_decide (lower prod = lit "epsilon") || bool_decide (prod = EPSILON_CHAR)
  then Ok (dict_append g head (None, None))
  else match prod with
       | [_] => (* len(prod) == 1 *)
           let terminal := prod in
           if bool_decide (terminal ∉ declared_terminals)
           then Raise (ValueError (TerminalNotDeclared line_num terminal prod head))
           else Ok (dict_append g head (Some terminal, None))
       | [c0; c1] => (* len(prod) >= 2 and len(prod) == 2 *)
           let terminal := [c0] in
           let next_non_terminal := [c1] in
           if bool_decide (terminal ∉ declared_terminals)
           then Raise (ValueError (TerminalNotDeclared line_num terminal prod head))
           else if bool_decide (next_non_terminal ∉ declared_non_terminals)
           then Raise (ValueError
                         (NonTerminalNotDeclared line_num next_non_terminal prod head))
           else Ok (dict_append g head (Some terminal, Some next_non_terminal))
       | _ :: _ :: _ :: _ => (* len(prod) >= 2 and len(prod) != 2 *)
           Raise (ValueError (InvalidProduction line_num prod head))
       | [] => (* the final else *)
           Raise (ValueError (UnexpectedProduction line_num prod head))
       end.

(** The body of [for line_num, line in enumerate(grammar_lines, 1)]; the
    loop state is [grammar] and [defined_non_terminals_in_rules]. *)
Definition parse_line (st : grammar * gset str) (line_num : nat) (line : str)
    : result (grammar * gset str) :=
  let '(g, defined_non_terminals_in_rules) := st in
  let line := strip line in
  if bool_decide (line = []) || startswith HASH line then Ok st (* continue *)
  else match split_once ARROW line with
       | None => (* "->" not in line *)
           Raise (ValueError (MissingArrow line_num line))
       | Some (head, body) =>
           let head := strip head in
           if bool_decide (head = []) then Raise (ValueError (EmptyHead line_num))
           else if bool_decide (head ∉ declared_non_terminals)
           then Raise (ValueError (HeadNotDeclared line_num head))
           else
             let defined_non_terminals_in_rules :=
               {[head]} ∪ defined_non_terminals_in_rules in
             let productions := strip <$> split_char BAR body in
             if bool_decide (productions = [])
                || existsb (λ p, bool_decide (p = [])) productions
             then Raise (ValueError (EmptyProduction line_num head))
             else
               g' ← rfold (parse_production line_num head) g productions;
               Ok (g', defined_non_terminals_in_rules)
       end.

Fixpoint parse_lines (line_num : nat) (grammar_lines : list str)
    (st : grammar * gset str) : result (grammar * gset str) :=
  match grammar_lines with
  | [] => Ok st
  | line :: rest =>
      st' ← parse_line st line_num line;
      parse_lines (S line_num) rest st'
  end.

End Parser.

Definition parse_grammar (lower : str → str) (grammar_lines : list str)
    (declared_non_terminals declared_terminals : gset str)
    (declared_start_symbol : str) : result grammar :=
  if bool_decide (declared_non_terminals = ∅)
  then Raise (ValueError EmptyNonTerminals)
  else if bool_decide (declared_start_symbol ∉ declared_non_terminals)
  then Raise (ValueError (StartNotDeclared declared_start_symbol))
  else if bool_decide (¬ declared_terminals ## declared_non_terminals)
  then Raise (ValueError
                (NotDisjoint (declared_terminals ∩ declared_non_terminals)))
  else
    st ← parse_lines lower declared_non_terminals declared_terminals
            1 grammar_lines ([], ∅);
    Ok st.1.

(** ** The NFA class *)

Abbreviation state := (list N) (only parsing).
Abbreviation symbol := (list N) (only parsing).

Record NFA := {
  states : gset state;
  alphabet : gset symbol;
  transitions : gmap (state * option symbol) (gset state);
  start_state : state;
  accept_states : gset state;
  _epsilon_closures : gmap state (gset state)
}.

(** A line written by [print]. *)
Inductive output :=
  | Warning (sym : symbol) (alph : gset symbol)
  | RejectedInvalid (input_string : str) (invalid_chars : gset symbol)
  | Verdict (input_string : str) (is_accepted : bool).

(** What a method can read and write: the object and the standard output. *)
Record world := { this : NFA; stdout : list output }.

Definition M (A : Type) : Type := world → A * world.

#[export] Instance M_ret : MRet M := λ A a w, (a, w).
#[export] Instance M_bind : MBind M := λ A B k m w,
  let '(a, w') := m w in k a w'.
Definition get_self : M NFA := λ w, (this w, w).
Definition print (l : output) : M unit :=
  λ w, (tt, {| this := this w; stdout := stdout w ++ [l] |}).

(** The object with its [_epsilon_closures] attribute replaced. *)
Definition with_epsilon_closures (nfa : NFA) (m : gmap state (gset state)) : NFA :=
  {| states := states nfa; alphabet := alphabet nfa;
     transitions := transitions nfa; start_state := start_state nfa;
     accept_states := accept_states nfa; _epsilon_closures := m |}.

(** [self._epsilon_closures[state] = closure] *)
Definition set_epsilon_closure (s : state) (closure : gset state) : M unit :=
  λ w, (tt, {| this := with_epsilon_closures (this w)
                         (<[s := closure]> (_epsilon_closures (this w)));
               stdout := stdout w |}).

(** [for x in l: body(x)] *)
Fixpoint for_each {A} (l : list A) (body : A → M unit) : M unit :=
  match l with
  | [] => mret tt
  | x :: l' => body x;; for_each l' body
  end.

(** [transitions.get(key, set())] *)
Definition transitions_get (tr : gmap (state * option symbol) (gset state))
    (key : state * option symbol) : gset state :=
  default ∅ (tr !! key).

(** *** Breadth-first search of [_compute_epsilon_closure] *)

(** The local variables of the search. *)
Record bfs := { queue : list state; visited : gset state; closure : gset state }.

(** The body of [for neighbor in epsilon_neighbors].  Python iterates a set
    in an order of its own; [elements] fixes one, and the closure found does
    not depend on it ([elem_of_bfs_closure] below). *)
Definition bfs_visit (b : bfs) (neighbor : state) : bfs :=
  if bool_decide (neighbor ∉ visited b)
  then {| queue := queue b ++ [neighbor];
          visited := {[neighbor]} ∪ visited b;
          closure := {[neighbor]} ∪ closure b |}
  else b.

(** The body of [while queue], entered with [current_state] just popped. *)
Definition bfs_body (tr : gmap (state * option symbol) (gset state))
    (current_state : state) (b : bfs) : bfs :=
  let epsilon_neighbors := transitions_get tr (current_state, None) in
  foldl bfs_visit b (elements epsilon_neighbors).

(** [while queue: ...], run for at most [fuel] iterations; the loop has left
    when the queue of the result is empty. *)
Fixpoint bfs_while (fuel : nat) (tr : gmap (state * option symbol) (gset state))
    (b : bfs) : bfs :=
  match fuel, queue b with
  | S fuel', current_state :: rest =>
      bfs_while fuel' tr
        (bfs_body tr current_state
           {| queue := rest; visited := visited b; closure := closure b |})
  | _, _ => b
  end.

(** Every destination state of the transition table. *)
Definition targets (tr : gmap (state * option symbol) (gset state)) : gset state :=
  ⋃ (map_to_list tr).*2.

(** Each state enters the queue at most once, and only the searched state
    and destination states do: so many iterations always empty the queue
    ([bfs_while_exits] below). *)
Definition bfs_fuel (tr : gmap (state * option symbol) (gset state)) : nat :=
  S (size (targets tr)).

Definition bfs_init (s : state) : bfs :=
  {| queue := [s]; visited := {[s]}; closure := {[s]} |}.

(** The search from [s], from [closure = {state}] to the end of the loop. *)
Definition bfs_closure (tr : gmap (state * option symbol) (gset state))
    (s : state) : gset state :=
  closure (bfs_while (bfs_fuel tr) tr (bfs_init s)).

(** *** Methods *)

Definition _compute_epsilon_closure (s : state) : M (gset state) :=
  self ← get_self;
  match _epsilon_closures self !! s with
  | Some cached => mret cached
  | None =>
      let closure := bfs_closure (transitions self) s in
      set_epsilon_closure s closure;;
      mret closure
  end.

Definition _compute_all_epsilon_closures : M unit :=
  self ← get_self;
  for_each (elements (states self)) (λ s, _ ← _compute_epsilon_closure s; mret tt).

Definition _get_epsilon_closure_set (states_set : gset state) : M (gset state) :=
  self ← get_self;
  mret (foldl (λ full_closure s,
                full_closure ∪ default {[s]} (_epsilon_closures self !! s))
         ∅ (elements states_set)).

(** The loop [for state in current_states] of [accepts]: the value of
    [next_states_after_symbol] when it ends. *)
Definition next_states (self : NFA) (current_states : gset state)
    (symbol : symbol) : gset state :=
  foldl (λ next_states_after_symbol s,
           let next_states_for_state :=
             transitions_get (transitions self) (s, Some symbol) in
           next_states_after_symbol ∪ next_states_for_state)
    ∅ (elements current_states).

(** The body of [for symbol in input_string] and what follows the loop. *)
Fixpoint accepts_loop (input_string : str) (current_states : gset state) : M bool :=
  match input_string with
  | [] =>
      self ← get_self;
      mret (bool_decide (¬ current_states ## accept_states self))
  | c :: rest =>
      let symbol := [c] in
      self ← get_self;
      if bool_decide (symbol ∉ alphabet self) then
        print (Warning symbol (alphabet self));;
        mret false
      else
        let next_states_after_symbol := next_states self current_states symbol in
        current_states ← _get_epsilon_closure_set next_states_after_symbol;
        if bool_decide (current_states = ∅) then mret false
        else accepts_loop rest current_states
  end.

Definition accepts (input_string : str) : M bool :=
  self ← get_self;
  current_states ← _get_epsilon_closure_set {[start_state self]};
  accepts_loop input_string current_states.

(** [NFA.__init__]: the object as the assignments leave it, the three
    checks, then the closures of all states. *)
Definition NFA_init (states : gset state) (alphabet : gset symbol)
    (transitions : gmap (state * option symbol) (gset state))
    (start_state : state) (accept_states : gset state) : result NFA :=
  let self := {| states := states; alphabet := alphabet;
                 transitions := transitions; start_state := start_state;
                 accept_states := accept_states; _epsilon_closures := ∅ |} in
  if bool_decide (start_state ∉ states)
  then Raise (ValueError (StartNotState start_state))
  else if bool_decide (¬ accept_states ⊆ states)
  then Raise (ValueError (AcceptNotSubset accept_states))
  else if existsb (λ kv, match kv.1.2 with
                         | Some symbol => bool_decide (symbol ∉ alphabet)
                         | None => false
                         end) (map_to_list transitions)
  then Raise (ValueError SymbolNotInAlphabet)
  else Ok (this (_compute_all_epsilon_closures {| this := self; stdout := [] |}).2).

(** ** The NFA builder *)

Definition FINAL_STATE_MARKER : state := lit "_FINAL_".

(** [nfa_transitions[key].add(target)] on a [defaultdict(set)]. *)
Definition add_transition (tr : gmap (state * option symbol) (gset state))
    (key : state * option symbol) (target : state)
    : gmap (state * option symbol) (gset state) :=
  <[key := {[target]} ∪ transitions_get tr key]> tr.

(** The body of [for terminal, next_state in productions]. *)
Definition build_production (head_state : state)
    (nfa_transitions : gmap (state * option symbol) (gset state))
    (p : production) : result (gmap (state * option symbol) (gset state)) :=
  match p with
  | (None, None) =>
      Ok (add_transition nfa_transitions (head_state, None) FINAL_STATE_MARKER)
  | (Some terminal, None) =>
      Ok (add_transition nfa_transitions (head_state, Some terminal)
            FINAL_STATE_MARKER)
  | (Some terminal, Some next_state) =>
      Ok (add_transition nfa_transitions (head_state, Some terminal) next_state)
  | (None, Some next_state) =>
      Raise (RuntimeError
               (UnexpectedParsedProduction None (Some next_state) head_state))
  end.

Definition build_nfa_from_grammar (grammar_dict : grammar)
    (non_terminals terminals : gset str) (start_symbol : str) : result NFA :=
  let nfa_states := non_terminals in
  if bool_decide (FINAL_STATE_MARKER ∈ nfa_states)
  then Raise (ValueError MarkerClash)
  else
    let nfa_states := {[FINAL_STATE_MARKER]} ∪ nfa_states in
    let nfa_alphabet := terminals in
    let nfa_start_state := start_symbol in
    let nfa_accept_states : gset state := {[FINAL_STATE_MARKER]} in
    nfa_transitions ←
      rfold (λ tr item, rfold (build_production item.1) tr item.2)
        ∅ grammar_dict;
    NFA_init nfa_states nfa_alphabet nfa_transitions nfa_start_state
      nfa_accept_states.

(** The body of the string loop of [main], for the automaton [nfa]: the
    alphabet check of the caller, then [nfa.accepts]. *)
Definition check_string (input_string : str) : M unit :=
  nfa ← get_self;
  let is_valid_input :=
    forallb (λ c, bool_decide ([c] ∈ alphabet nfa)) input_string in
  if negb is_valid_input then
    let invalid_chars : gset symbol :=
      list_to_set ((λ c, [c]) <$>
                   filter (λ c, [c] ∉ alphabet nfa) input_string) in
    print (RejectedInvalid input_string invalid_chars)
  else
    is_accepted ← accepts input_string;
    print (Verdict input_string is_accepted).

(** * Vocabulary of the properties *)

(** [t] is an epsilon neighbour of [s]. *)
Definition eps_edge (tr : gmap (state * option symbol) (gset state))
    (s t : state) : Prop :=
  t ∈ transitions_get tr (s, None).

(** *** The search *)

(** The states the search from [s0] can ever see. *)
Definition bfs_universe (tr : gmap (state * option symbol) (gset state))
    (s0 : state) : gset state :=
  {[s0]} ∪ targets tr.

(** What bounds the remaining iterations of the search. *)
Definition bfs_measure (tr : gmap (state * option symbol) (gset state))
    (s0 : state) (b : bfs) : nat :=
  size (bfs_universe tr s0 ∖ visited b) + length (queue b).

(** What holds of the local variables each time the [while] test is
    evaluated. *)
Record bfs_inv (tr : gmap (state * option symbol) (gset state))
    (s0 : state) (b : bfs) : Prop := {
  inv_closure : closure b = visited b;
  inv_start : s0 ∈ visited b;
  inv_universe : visited b ⊆ bfs_universe tr s0;
  inv_reach : ∀ t, t ∈ visited b → rtc (eps_edge tr) s0 t;
  inv_queue : ∀ t, t ∈ queue b → t ∈ visited b;
  inv_done : ∀ t, t ∈ visited b →
               t ∈ queue b ∨ ∀ u, eps_edge tr t u → u ∈ visited b
}.

(** What a successful construction establishes. *)
Record constructed (nfa : NFA) : Prop := {
  constructed_start : start_state nfa ∈ states nfa;
  constructed_accept : accept_states nfa ⊆ states nfa;
  constructed_symbols : ∀ s a T,
    transitions nfa !! (s, Some a) = Some T → a ∈ alphabet nfa;
  constructed_closures : ∀ s,
    _epsilon_closures nfa !! s
    = if decide (s ∈ states nfa)
      then Some (bfs_closure (transitions nfa) s) else None
}.

(** ** The subset simulation, as the specification words it *)

(** [closure_of] is the epsilon closure of single states: the states
    reachable through zero or more epsilon transitions. *)
Definition is_epsilon_closure (tr : gmap (state * option symbol) (gset state))
    (closure_of : state → gset state) : Prop :=
  ∀ s t, t ∈ closure_of s ↔ rtc (eps_edge tr) s t.

Section SubsetSimulation.

Variable closure_of : state → gset state.
Variable nfa : NFA.

(** The epsilon closure of a set: the union of the closures of its
    members. *)
Definition spec_closure (X : gset state) : gset state :=
  ⋃ (closure_of <$> elements X).

(** The union over [s] in [current] of [transitions(s, symbol)], the empty
    set where there is none. *)
Definition spec_next (current : gset state) (sym : symbol) : gset state :=
  ⋃ ((λ s, default ∅ (transitions nfa !! (s, Some sym))) <$> elements current).

(** Steps 2 and 3 of the acceptance algorithm, for symbols of the
    alphabet. *)
Fixpoint spec_run (current : gset state) (input : str) : bool :=
  match input with
  | [] => bool_decide (current ∩ accept_states nfa ≠ ∅)
  | c :: rest =>
      let current := spec_closure (spec_next current [c]) in
      if bool_decide (current = ∅) then false else spec_run current rest
  end.

Definition spec_accepts (input : str) : bool :=
  spec_run (spec_closure {[start_state nfa]}) input.

(** The current set after all of [input], without the short cut. *)
Definition spec_current (input : str) : gset state :=
  foldl (λ current c, spec_closure (spec_next current [c]))
    (spec_closure {[start_state nfa]}) input.

End SubsetSimulation.

(** A state whose cached closure, or whose stand-in for it, is its epsilon
    closure: a member of the state set, or a state without outgoing epsilon
    transitions. *)
Definition closure_known (nfa : NFA) (s : state) : Prop :=
  s ∈ states nfa ∨ transitions_get (transitions nfa) (s, None) = ∅.

(** Every destination of a transition on a symbol is such a state. *)
Definition destinations_known (nfa : NFA) : Prop :=
  ∀ s a t, t ∈ transitions_get (transitions nfa) (s, Some a) → closure_known nfa t.

(** ** Grammars and transition tables *)

(** The three legal shapes of a production over declared symbols. *)
Definition legal_production (V Σ : gset str) (p : production) : Prop :=
  p = (None, None)
  ∨ (∃ terminal, p = (Some terminal, None) ∧ terminal ∈ Σ)
  ∨ (∃ terminal next, p = (Some terminal, Some next) ∧ terminal ∈ Σ ∧ next ∈ V).

(** Every production of every head satisfies [Q]. *)
Definition grammar_Forall (Q : production → Prop) (g : grammar) : Prop :=
  Forall (λ item, Forall Q item.2) g.

(** Destination states are the marker or declared non-terminals, symbols
    are declared terminals. *)
Definition transitions_within (V Σ : gset str)
    (tr : gmap (state * option symbol) (gset state)) : Prop :=
  (∀ t, t ∈ targets tr → t = FINAL_STATE_MARKER ∨ t ∈ V)
  ∧ (∀ s a, is_Some (tr !! (s, Some a)) → a ∈ Σ).

(** A code point of the ASCII range. *)
Definition is_ascii (c : codepoint) : Prop := (c < 128)%N.

(** ** Example automata *)

(** Scenario 1: terminals a, b; non-terminals S, A; rules S -> aA | b and
    A -> b. *)
Definition scenario1_lines : list str := [lit "S -> aA | b"; lit "A -> b"].
Definition scenario1_V : gset str := {[lit "S"; lit "A"]}.
Definition scenario1_Σ : gset str := {[lit "a"; lit "b"]}.
Definition scenario1_grammar : grammar :=
  [(lit "S", [(Some (lit "a"), Some (lit "A")); (Some (lit "b"), None)]);
   (lit "A", [(Some (lit "b"), None)])].
Definition scenario1_nfa : NFA :=
  {| states := {[FINAL_STATE_MARKER; lit "S"; lit "A"]};
     alphabet := scenario1_Σ;
     transitions :=
       {[ (lit "S", Some (lit "a")) := {[lit "A"]};
          (lit "S", Some (lit "b")) := {[FINAL_STATE_MARKER]};
          (lit "A", Some (lit "b")) := {[FINAL_STATE_MARKER]} ]};
     start_state := lit "S";
     accept_states := {[FINAL_STATE_MARKER]};
     _epsilon_closures :=
       {[ FINAL_STATE_MARKER := {[FINAL_STATE_MARKER]};
          lit "S" := {[lit "S"]};
          lit "A" := {[lit "A"]} ]} |}.

(** Scenario 2: terminal a; non-terminal S; rule S -> epsilon. *)
Definition scenario2_lines : list str := [lit "S -> epsilon"].
Definition scenario2_V : gset str := {[lit "S"]}.
Definition scenario2_Σ : gset str := {[lit "a"]}.
Definition scenario2_grammar : grammar := [(lit "S", [(None, None)])].
Definition scenario2_nfa : NFA :=
  {| states := {[FINAL_STATE_MARKER; lit "S"]};
     alphabet := scenario2_Σ;
     transitions := {[ (lit "S", None) := {[FINAL_STATE_MARKER]} ]};
     start_state := lit "S";
     accept_states := {[FINAL_STATE_MARKER]};
     _epsilon_closures :=
       {[ FINAL_STATE_MARKER := {[FINAL_STATE_MARKER]};
          lit "S" := {[lit "S"; FINAL_STATE_MARKER]} ]} |}.

(** An automaton that the constructor accepts although the destination X
    of its transition on a is not one of its states S and F; X has an
    epsilon transition to the accept state F. *)
Definition dangling_states : gset state := {[lit "S"; lit "F"]}.
Definition dangling_alphabet : gset symbol := {[lit "a"]}.
Definition dangling_transitions : gmap (state * option symbol) (gset state) :=
  {[ (lit "S", Some (lit "a")) := {[lit "X"]};
     (lit "X", None) := {[lit "F"]} ]}.
Definition dangling_nfa : NFA :=
  {| states := dangling_states;
     alphabet := dangling_alphabet;
     transitions := dangling_transitions;
     start_state := lit "S";
     accept_states := {[lit "F"]};
     _epsilon_closures := {[ lit "S" := {[lit "S"]}; lit "F" := {[lit "F"]} ]} |}.

(** * Vocabulary of the further properties *)

(** ** The language of an automaton *)

(** The word [w] takes the automaton from [s] to an accept state, through
    transitions on its symbols and epsilon transitions. *)
Inductive accepts_from (nfa : NFA) : state → str → Prop :=
  | accepts_from_accept s :
      s ∈ accept_states nfa → accepts_from nfa s []
  | accepts_from_epsilon s t w :
      eps_edge (transitions nfa) s t → accepts_from nfa t w →
      accepts_from nfa s w
  | accepts_from_symbol s c t w :
      t ∈ transitions_get (transitions nfa) (s, Some [c]) →
      accepts_from nfa t w → accepts_from nfa s (c :: w).

(** ** The language of a grammar *)

(** The non-terminal [A] derives the word [w] by the productions of the
    grammar [dict]: [A -> epsilon], [A -> c] and [A -> cB]. *)
Inductive derives (g : grammar) : str → str → Prop :=
  | derives_epsilon A ps :
      (A, ps) ∈ g → (None, None) ∈ ps → derives g A []
  | derives_terminal A ps c :
      (A, ps) ∈ g → (Some [c], None) ∈ ps → derives g A [c]
  | derives_next A ps c B w :
      (A, ps) ∈ g → (Some [c], Some B) ∈ ps → derives g B w →
      derives g A (c :: w).

(** The final marker occurs in the grammar neither as a head nor as a next
    non-terminal. *)
Definition marker_free (g : grammar) : Prop :=
  ∀ h ps, (h, ps) ∈ g →
    h ≠ FINAL_STATE_MARKER ∧ ∀ a, (a, Some FINAL_STATE_MARKER) ∉ ps.

(** The productions of the grammar that the builder has no case for. *)
Definition has_bare_non_terminal (g : grammar) : Prop :=
  ∃ h ps next, (h, ps) ∈ g ∧ (None, Some next) ∈ ps.

(** ** Parsed grammars *)

(** A grammar [dict] as the parser keeps it: one entry per head, the heads
    non-empty declared non-terminals, no head without a production. *)
Definition well_keyed (V : gset str) (g : grammar) : Prop :=
  NoDup g.*1 ∧ Forall (λ item, item.1 ∈ V ∧ item.1 ≠ [] ∧ item.2 ≠ []) g.

(** The symbols of a production are single characters, and a terminal that
    stands alone is not the epsilon character. *)
Definition single_characters (p : production) : Prop :=
  match p with
  | (Some terminal, None) => length terminal = 1 ∧ terminal ≠ EPSILON_CHAR
  | (Some terminal, Some next) => length terminal = 1 ∧ length next = 1
  | (None, _) => True
  end.

(** The line number that a message of the parser carries. *)
Definition message_line (m : message) : option nat :=
  match m with
  | MissingArrow n _ | EmptyHead n | HeadNotDeclared n _ | EmptyProduction n _
  | TerminalNotDeclared n _ _ _ | NonTerminalNotDeclared n _ _ _
  | InvalidProduction n _ _ | UnexpectedProduction n _ _ => Some n
  | _ => None
  end.

(** The message with its line number, if it has one, replaced. *)
Definition with_line (n : nat) (m : message) : message :=
  match m with
  | MissingArrow _ l => MissingArrow n l
  | EmptyHead _ => EmptyHead n
  | HeadNotDeclared _ h => HeadNotDeclared n h
  | EmptyProduction _ h => EmptyProduction n h
  | TerminalNotDeclared _ t p h => TerminalNotDeclared n t p h
  | NonTerminalNotDeclared _ t p h => NonTerminalNotDeclared n t p h
  | InvalidProduction _ p h => InvalidProduction n p h
  | UnexpectedProduction _ p h => UnexpectedProduction n p h
  | _ => m
  end.

(** The result with the line number of its exception replaced. *)
Definition renumbered {A} (n : nat) (r : result A) : result A :=
  match r with
  | Ok a => Ok a
  | Raise (ValueError m) => Raise (ValueError (with_line n m))
  | Raise (RuntimeError m) => Raise (RuntimeError (with_line n m))
  end.

(** A line that the parser passes over: blank, or a comment. *)
Definition is_skipped (line : str) : Prop :=
  strip line = [] ∨ startswith HASH (strip line) = true.

#[export] Instance is_skipped_dec line : Decision (is_skipped line).
Proof. unfold is_skipped. apply _. Defined.

(** ** Reading the declarations *)

(** [re.split(r'\s+', s)]: the pieces of [s] between its maximal runs of
    whitespace, the empty piece before a leading and after a trailing run
    included; [in_run] tells that the character before was whitespace. *)
Fixpoint re_split_whitespace (in_run : bool) (s : str) : list str :=
  match s with
  | [] => [[]]
  | c :: s' =>
      if isspace c then
        if in_run then re_split_whitespace true s'
        else [] :: re_split_whitespace true s'
      else match re_split_whitespace false s' with
           | piece :: pieces => (c :: piece) :: pieces
           | [] => [[c]]
           end
  end.

(** [get_symbols_from_input], as a function of the line that [input]
    returns. *)
Definition get_symbols_from_input (line : str) : gset str :=
  let user_input := strip line in
  if bool_decide (user_input = []) then ∅
  else
    let symbols : gset str := list_to_set (re_split_whitespace false user_input) in
    symbols.

(** The text ends with a character that is no whitespace. *)
Definition ends_without_space (s : str) : Prop :=
  ∃ c, last s = Some c ∧ isspace c = false.

(** ** A running automaton *)

(** The automaton of the second scenario, with nothing printed yet. *)
Definition scenario2_world : world := {| this := scenario2_nfa; stdout := [] |}.


(** ** The console program *)

(** What [main] can see raised: the exceptions of the parser, the builder
    and the constructor, and the [EOFError] of [input]. *)
Inductive exception :=
  | EOFError
  | Other (e : exn).

(** A line written by [main]: [Say] for a fixed text, one constructor for
    each text with fields.  A [print] whose text starts with a newline
    writes [Blank] and then the rest. *)
Inductive line :=
  | Blank
  | Say (text : string)
  | ShowTerminals (terminals : gset str)
  | ShowNonTerminals (non_terminals : gset str)
  | ShowStartSymbol (start_symbol : str)
  | ShowStates (states : gset state)
  | ShowAlphabet (alphabet : gset symbol)
  | ShowStartState (start_state : state)
  | ShowAcceptStates (accept_states : gset state)
  | Answer (o : output)
  | NoTerminals
  | NoNonTerminals
  | NoStartSymbol
  | StartSymbolNotDeclared (start_symbol : str) (non_terminals : gset str)
  | Overlap (overlap : gset str)
  | ReportError (m : message)
  | ReportUnexpected (e : exception).

(** What happens at the console, in order: the prompt of an [input], a line
    on the standard output, a line on the standard error. *)
Inductive event :=
  | Prompt (text : string)
  | Stdout (l : line)
  | Stderr (l : line).

(** The lines not yet read and what happened so far. *)
Record console := { stdin : list str; shown : list event }.

(** How a block of statements ends: at its end, at a [return], or with an
    exception. *)
Inductive flow (A : Type) :=
  | Next (a : A)
  | Return
  | Throw (e : exception).
Arguments Next {A} a.
Arguments Return {A}.
Arguments Throw {A} e.

Definition IO (A : Type) : Type := console → flow A * console.

#[export] Instance IO_ret : MRet IO := λ A a c, (Next a, c).
#[export] Instance IO_bind : MBind IO := λ A B k m c,
  match m c with
  | (Next a, c') => k a c'
  | (Return, c') => (Return, c')
  | (Throw e, c') => (Throw e, c')
  end.

Definition show (e : event) : IO unit :=
  λ c, (Next tt, {| stdin := stdin c; shown := shown c ++ [e] |}).
Definition print_line (l : line) : IO unit := show (Stdout l).
Definition print_stderr (l : line) : IO unit := show (Stderr l).
Definition return_ {A} : IO A := λ c, (Return, c).

(** [input(prompt)]: the prompt is written, then a line is read; at the end
    of the input [EOFError] is raised. *)
Definition input (prompt : string) : IO str :=
  λ c, let shown := shown c ++ [Prompt prompt] in
       match stdin c with
       | [] => (Throw EOFError, {| stdin := []; shown := shown |})
       | l :: rest => (Next l, {| stdin := rest; shown := shown |})
       end.

(** The value of a call that may raise. *)
Definition lift {A} (r : result A) : IO A :=
  λ c, match r with
       | Ok a => (Next a, c)
       | Raise e => (Throw (Other e), c)
       end.

(** A method call on the object [nfa]: what the method prints is written to
    the console; the value and the object after the call are returned. *)
Definition call {A} (m : M A) (nfa : NFA) : IO (A * NFA) :=
  λ c, let '(a, w) := m {| this := nfa; stdout := [] |} in
       (Next (a, this w),
        {| stdin := stdin c;
           shown := shown c ++ ((λ o, Stdout (Answer o)) <$> stdout w) |}).

(** An upper bound of the number of iterations of a loop that reads a line
    in each iteration: the lines left, and the iteration that meets the end
    of the input. *)
Definition lines_left : IO nat := λ c, (Next (S (length (stdin c))), c).

(** [get_symbols_from_input(prompt)] *)
Definition input_symbols (prompt : string) : IO (gset str) :=
  user_input ← input prompt;
  mret (get_symbols_from_input user_input).

(** The loop that reads the rules.  [EOFError] can only come from [input]:
    the handler [except EOFError: break] is the first branch. *)
Fixpoint rules_loop (fuel : nat) (grammar_lines : list str) : IO (list str) :=
  match fuel with
  | 0 => mret grammar_lines
  | S fuel => λ c,
      match input "> " c with
      | (Throw EOFError, c') => (Next grammar_lines, c')
      | (Next l, c') =>
          if bool_decide (l = []) then (Next grammar_lines, c')
          else rules_loop fuel (grammar_lines ++ [l]) c'
      | (Throw e, c') => (Throw e, c')
      | (Return, c') => (Return, c')
      end
  end.

(** The loop that reads the strings.  The test of its [break] is written as
    in the source: the string is empty and differs from the empty string. *)
Fixpoint strings_loop (fuel : nat) (nfa : NFA) : IO unit :=
  match fuel with
  | 0 => mret tt
  | S fuel => λ c,
      match input "String? " c with
      | (Throw EOFError, c') => (Next tt, c')
      | (Next input_string, c') =>
          if bool_decide (input_string = []) && bool_decide (input_string ≠ [])
          then (Next tt, c')
          else ('(_, nfa) ← call (check_string input_string) nfa;
                strings_loop fuel nfa) c'
      | (Throw e, c') => (Throw e, c')
      | (Return, c') => (Return, c')
      end
  end.

(** The body of the [try] statement of [main]. *)
Definition main_try (lower : str → str) : IO unit :=
  terminals ←
    input_symbols "Enter Terminal symbols (space-separated, e.g., a b 0 1): ";
  if bool_decide (terminals = ∅) then print_stderr NoTerminals;; return_ else
  non_terminals ←
    input_symbols "Enter Non-Terminal symbols (space-separated, e.g., S A B): ";
  if bool_decide (non_terminals = ∅)
  then print_stderr NoNonTerminals;; return_ else
  start_symbol ←
    input "Enter the Start Symbol (must be one of the non-terminals): ";
  let start_symbol := strip start_symbol in
  if bool_decide (start_symbol = []) then print_stderr NoStartSymbol;; return_ else
  if bool_decide (start_symbol ∉ non_terminals)
  then print_stderr (StartSymbolNotDeclared start_symbol non_terminals);; return_
  else
  if bool_decide (¬ terminals ## non_terminals)
  then print_stderr (Overlap (terminals ∩ non_terminals));; return_ else
  print_line Blank;; print_line (Say "--- Grammar Definition ---");;
  print_line (ShowTerminals terminals);;
  print_line (ShowNonTerminals non_terminals);;
  print_line (ShowStartSymbol start_symbol);;
  print_line (Say "--------------------------");;
  print_line Blank;;
  print_line (Say "Enter grammar rules (one per line, e.g., 'S -> aA | b').");;
  print_line (Say "Use 'epsilon' or 'ε' for the empty string production.");;
  print_line
    (Say "Ensure symbols used match the declared terminals and non-terminals.");;
  print_line (Say "Press Enter on an empty line to finish grammar input.");;
  print_line (Say "--------------------------------");;
  fuel ← lines_left;
  grammar_lines ← rules_loop fuel [];
  if bool_decide (grammar_lines = [])
  then print_line (Say "No grammar rules entered. Exiting.");; return_ else
  grammar_dict ←
    lift (parse_grammar lower grammar_lines non_terminals terminals start_symbol);
  print_line Blank;; print_line (Say "--- Grammar Parsed Successfully ---");;
  nfa ←
    lift (build_nfa_from_grammar grammar_dict non_terminals terminals
            start_symbol);
  print_line Blank;; print_line (Say "--- NFA Constructed ---");;
  print_line (ShowStates (states nfa));;
  print_line (ShowAlphabet (alphabet nfa));;
  print_line (ShowStartState (start_state nfa));;
  print_line (ShowAcceptStates (accept_states nfa));;
  print_line Blank;; print_line (Say "--- String Acceptance Check ---");;
  print_line
    (Say "Enter strings to check (one per line). Press Enter on an empty line to exit.");;
  fuel ← lines_left;
  strings_loop fuel nfa.

(** The handlers of the [try] statement of [main] and the [print] that
    follows it, which a [return] in the body skips. *)
Definition try_except (body : IO unit) : IO unit :=
  λ c,
    let exiting : IO unit := print_line Blank;; print_line (Say "Exiting.") in
    match body c with
    | (Next _, c') => exiting c'
    | (Return, c') => (Next tt, c')
    | (Throw (Other (ValueError m)), c') =>
        (print_stderr Blank;; print_stderr (ReportError m);; exiting) c'
    | (Throw e, c') =>
        (print_stderr Blank;; print_stderr (ReportUnexpected e);; exiting) c'
    end.

Definition main (lower : str → str) : IO unit :=
  print_line (Say "Regular Grammar to NFA Converter");;
  print_line (Say "--------------------------------");;
  print_line (Say "Define the grammar components first.");;
  try_except (main_try lower).

(** A run of [main] on the lines given. *)
Definition run_main (lower : str → str) (lines : list str) : list event :=
  shown (main lower {| stdin := lines; shown := [] |}).2.

(** The lines of the string loop among the events. *)
Definition answers (events : list event) : list output :=
  omap (λ e, match e with Stdout (Answer o) => Some o | _ => None end) events.

(** The lines written to the standard error among the events. *)
Definition complaints (events : list event) : list line :=
  omap (λ e, match e with Stderr l => Some l | _ => None end) events.

(** The alphabet check of the string loop. *)
Definition over_alphabet (terminals : gset str) (input_string : str) : Prop :=
  Forall (λ c, [c] ∈ terminals) input_string.

(** The line is the warning of [accepts]. *)
Definition is_warning (o : output) : Prop := ∃ sym alph, o = Warning sym alph.

(** The lines that [main] writes to the standard error when it is given
    [n] lines. *)
Definition expected_complaint (n : nat) (l : line) : Prop :=
  match l with
  | Blank | NoTerminals | NoNonTerminals | NoStartSymbol => True
  | StartSymbolNotDeclared start_symbol non_terminals =>
      start_symbol ≠ [] ∧ start_symbol ∉ non_terminals
  | Overlap overlap => overlap ≠ ∅
  | ReportError m => m = MarkerClash ∨ is_Some (message_line m)
  | ReportUnexpected e => e = EOFError ∧ n < 3
  | _ => False
  end.

(** The events of a run of [main] on [n] lines. *)
Definition expected_event (n : nat) (e : event) : Prop :=
  match e with
  | Prompt _ => True
  | Stdout (Answer o) => ¬ is_warning o
  | Stdout (Blank | Say _ | ShowTerminals _ | ShowNonTerminals _
           | ShowStartSymbol _ | ShowStates _ | ShowAlphabet _
           | ShowStartState _ | ShowAcceptStates _) => True
  | Stdout _ => False
  | Stderr l => expected_complaint n l
  end.

(** The statements [m] show events of [P] only and raise exceptions of [E]
    only. *)
Definition respects {A} (P : event → Prop) (E : exception → Prop)
    (m : IO A) : Prop :=
  ∀ c, Forall P (shown c) →
       Forall P (shown (m c).2) ∧ ∀ e, (m c).1 = Throw e → E e.

(** A session at the console: the declarations and the rules of the first
    scenario, the empty line that ends the rules, and three strings. *)
Definition session_queries : list str := [lit "ab"; []; lit "c"].
Definition session_lines : list str :=
  lit "a b" :: lit "S A" :: lit "S" :: scenario1_lines ++ [] :: session_queries.

(** * Properties *)

(** Closes a goal left by the negative branch of a decided test. *)
Ltac stable := first [done | by apply dec_stable].

(** ** Sets built by loops *)

Lemma elem_of_foldl_union {A} (f : A → gset state) (l : list A) (acc : gset state) t :
  t ∈ foldl (λ acc x, acc ∪ f x) acc l ↔ t ∈ acc ∨ ∃ x, x ∈ l ∧ t ∈ f x.
Proof.
  revert acc. induction l as [|x l IH]; intros acc; simpl.
  - split; [auto|]. intros [?|(x & Hx & _)]; [done|]. by apply elem_of_nil in Hx.
  - rewrite IH, elem_of_union. split.
    + intros [[?|?]|(y & ? & ?)]; [by left| |].
      * right. exists x. split; [left|done].
      * right. exists y. split; [by right|done].
    + intros [?|(y & Hy & ?)]; [by left; left|].
      apply elem_of_cons in Hy as [->|?]; [by left; right|].
      right. by exists y.
Qed.

Lemma size_difference_step (U V : gset state) (n : state) :
  n ∈ U → n ∉ V → size (U ∖ V) = S (size (U ∖ ({[n]} ∪ V))).
Proof.
  intros HU HV.
  assert (U ∖ V = {[n]} ∪ (U ∖ ({[n]} ∪ V))) as ->.
  { apply set_eq. intros x. rewrite elem_of_union, !elem_of_difference,
      elem_of_union, elem_of_singleton.
    destruct (decide (x = n)) as [->|]; naive_solver. }
  rewrite (size_union {[n]}) by set_solver. by rewrite size_singleton.
Qed.

(** ** The search computes reachability along epsilon edges *)

Lemma transitions_get_targets tr key : transitions_get tr key ⊆ targets tr.
Proof.
  unfold transitions_get, targets. destruct (tr !! key) as [T|] eqn:E; simpl.
  - intros t Ht. apply elem_of_union_list. exists T. split; [|done].
    apply list_elem_of_fmap. exists (key, T). split; [done|].
    by apply elem_of_map_to_list.
  - set_solver.
Qed.

Lemma elem_of_targets tr t :
  t ∈ targets tr ↔ ∃ key T, tr !! key = Some T ∧ t ∈ T.
Proof.
  unfold targets. rewrite elem_of_union_list. split.
  - intros (T & HT & Ht). apply list_elem_of_fmap in HT as ([key T'] & -> & Hk).
    apply elem_of_map_to_list in Hk. by exists key, T'.
  - intros (key & T & Hk & Ht). exists T. split; [|done].
    apply list_elem_of_fmap. exists (key, T). split; [done|].
    by apply elem_of_map_to_list.
Qed.

Section BreadthFirst.

Variable tr : gmap (state * option symbol) (gset state).
Variable s0 : state.

Local Notation universe := (bfs_universe tr s0).

Lemma foldl_bfs_visit (l : list state) (b : bfs) :
  (∀ x, x ∈ l → x ∈ universe) →
  closure b = visited b →
  let b' := foldl bfs_visit b l in
  visited b' = visited b ∪ list_to_set l
  ∧ closure b' = visited b'
  ∧ (∃ new, queue b' = queue b ++ new
            ∧ (∀ x, x ∈ new → x ∈ l)
            ∧ (∀ x, x ∈ l → x ∈ visited b ∨ x ∈ new))
  ∧ bfs_measure tr s0 b' = bfs_measure tr s0 b.
Proof.
  revert b. induction l as [|n l IH]; intros b Hl Hcv; simpl.
  - split_and!; [set_solver|done| |done].
    exists []. rewrite app_nil_r. split_and!; [done|done|].
    intros x Hx. by apply elem_of_nil in Hx.
  - assert (n ∈ universe) as Hn by (apply Hl; left).
    destruct (IH (bfs_visit b n)) as (Hv & Hc & (new & Hq & Hnew & Hall) & Hm).
    { intros x Hx. apply Hl. by right. }
    { unfold bfs_visit. case_bool_decide; cbn [visited closure]; congruence. }
    clear IH Hl. unfold bfs_visit in *.
    case_bool_decide as Hvis; cbn [queue visited closure] in *.
    + split_and!.
      * rewrite Hv. clear. set_solver.
      * done.
      * exists (n :: new). rewrite Hq, <- app_assoc. split_and!; [done| |].
        -- intros x [->|Hx]%elem_of_cons; [left|right; auto].
        -- intros x [->|Hx]%elem_of_cons; [right; left|].
           destruct (Hall x Hx) as [Hx'|Hx']; [|right; by right].
           apply elem_of_union in Hx' as [->%elem_of_singleton|?];
             [right; left|by left].
      * rewrite Hm. unfold bfs_measure; cbn [queue visited closure].
        rewrite length_app; cbn [length].
        rewrite (size_difference_step universe (visited b) n) by done. lia.
    + split_and!.
      * rewrite Hv. clear -Hvis. set_solver.
      * done.
      * exists new. split_and!; [done| |].
        -- intros x Hx. right; auto.
        -- intros x [->|Hx]%elem_of_cons; [by left|auto].
      * done.
Qed.

Lemma bfs_body_inv current_state rest vis clo :
  bfs_inv tr s0 {| queue := current_state :: rest; visited := vis; closure := clo |} →
  let b' := bfs_body tr current_state
              {| queue := rest; visited := vis; closure := clo |} in
  bfs_inv tr s0 b'
  ∧ S (bfs_measure tr s0 b')
    = bfs_measure tr s0
        {| queue := current_state :: rest; visited := vis; closure := clo |}.
Proof.
  intros [Hc Hs Hu Hr Hq Hd]; simpl in *. unfold bfs_body.
  set (neighbors := transitions_get tr (current_state, None)).
  destruct (foldl_bfs_visit (elements neighbors)
              {| queue := rest; visited := vis; closure := clo |})
    as (Hv & Hc' & (new & Hq' & Hnew & Hall) & Hm); cbn [queue visited closure] in *.
  { intros x Hx%elem_of_elements. unfold bfs_universe. apply elem_of_union. right.
    by apply (transitions_get_targets tr (current_state, None)). }
  { done. }
  rewrite list_to_set_elements_L in Hv.
  assert (current_state ∈ vis) as Hcur by (apply Hq; left).
  split.
  - constructor.
    + done.
    + rewrite Hv. apply elem_of_union. by left.
    + rewrite Hv. intros t [?|Ht]%elem_of_union; [auto|].
      unfold bfs_universe. apply elem_of_union. right.
      by apply (transitions_get_targets tr (current_state, None)).
    + rewrite Hv. intros t [?|Ht]%elem_of_union; [auto|].
      eapply rtc_r; [apply Hr, Hcur|exact Ht].
    + rewrite Hq', Hv. intros t [Ht|Ht]%elem_of_app.
      * apply elem_of_union. left. apply Hq. by right.
      * apply elem_of_union. right. by apply elem_of_elements, Hnew.
    + rewrite Hq', Hv. intros t [Ht|Ht]%elem_of_union.
      * destruct (Hd t Ht) as [[->|Hin]%elem_of_cons|Hdone].
        -- right. intros u Hu'. apply elem_of_union. by right.
        -- left. apply elem_of_app. by left.
        -- right. intros u Hu'. apply elem_of_union. left. by apply Hdone.
      * destruct (Hall t) as [Hin|Hin]; [by apply elem_of_elements| |].
        -- destruct (Hd t Hin) as [[->|Hin']%elem_of_cons|Hdone].
           ++ right. intros u Hu'. apply elem_of_union. by right.
           ++ left. apply elem_of_app. by left.
           ++ right. intros u Hu'. apply elem_of_union. left. by apply Hdone.
        -- left. apply elem_of_app. by right.
  - rewrite Hm. unfold bfs_measure; simpl. lia.
Qed.

Lemma bfs_while_inv (fuel : nat) (b : bfs) :
  bfs_inv tr s0 b → bfs_measure tr s0 b ≤ fuel →
  bfs_inv tr s0 (bfs_while fuel tr b) ∧ queue (bfs_while fuel tr b) = [].
Proof.
  revert b. induction fuel as [|fuel IH]; intros [q vis clo] Hinv Hm.
  - unfold bfs_measure in Hm; simpl in *.
    destruct q; simpl in *; [done|lia].
  - simpl. destruct q as [|current_state rest]; [done|].
    destruct (bfs_body_inv _ _ _ _ Hinv) as [Hinv' Hm'].
    apply IH; [done|]. lia.
Qed.

Lemma bfs_init_inv : bfs_inv tr s0 (bfs_init s0).
Proof.
  constructor; simpl.
  - done.
  - set_solver.
  - unfold bfs_universe. set_solver.
  - intros t ->%elem_of_singleton. done.
  - intros t ->%list_elem_of_singleton. set_solver.
  - intros t ->%elem_of_singleton. left. left.
Qed.

Lemma bfs_init_measure : bfs_measure tr s0 (bfs_init s0) ≤ bfs_fuel tr.
Proof.
  unfold bfs_measure, bfs_fuel; simpl.
  assert (size (universe ∖ {[s0]}) ≤ size (targets tr)); [|lia].
  apply subseteq_size. unfold bfs_universe. set_solver.
Qed.

(** The [while] loop of the search ends: the fuel of [bfs_closure] is never
    used up, the queue is empty at the end. *)
Lemma bfs_while_exits : queue (bfs_while (bfs_fuel tr) tr (bfs_init s0)) = [].
Proof. apply bfs_while_inv; [apply bfs_init_inv|apply bfs_init_measure]. Qed.

(** The closure found is the set of states reachable by epsilon edges. *)
Lemma elem_of_bfs_closure t :
  t ∈ bfs_closure tr s0 ↔ rtc (eps_edge tr) s0 t.
Proof.
  unfold bfs_closure.
  destruct (bfs_while_inv (bfs_fuel tr) (bfs_init s0))
    as [[Hc Hs Hu Hr Hq Hd] Hempty]; [apply bfs_init_inv|apply bfs_init_measure|].
  rewrite Hc. split; [apply Hr|].
  revert t. apply rtc_ind_r; [done|]. intros y z _ Hedge Hy.
  destruct (Hd y Hy) as [Hin|Hdone]; [|by apply Hdone].
  rewrite Hempty in Hin. by apply elem_of_nil in Hin.
Qed.

End BreadthFirst.

(** Once the queue is empty, further iterations change nothing: any fuel
    from [bfs_fuel] on gives the same closure. *)
Lemma bfs_while_more_fuel tr s fuel :
  bfs_fuel tr ≤ fuel →
  bfs_while fuel tr (bfs_init s) = bfs_while (bfs_fuel tr) tr (bfs_init s).
Proof.
  intros Hle. pose proof (bfs_init_measure tr s) as Hm.
  pose proof (bfs_init_inv tr s) as Hinv.
  revert Hm Hinv Hle. generalize (bfs_fuel tr) (bfs_init s).
  intros n b. revert n b. induction fuel as [|fuel IH]; intros n b Hm Hinv Hle.
  - by replace n with 0 by lia.
  - destruct b as [q vis clo]. destruct q as [|current_state rest].
    + by destruct n.
    + destruct n as [|n].
      * unfold bfs_measure in Hm; simpl in Hm; lia.
      * simpl. destruct (bfs_body_inv tr s _ _ _ _ Hinv) as [Hinv' Hm'].
        apply IH; [lia|done|lia].
Qed.

(** ** Running the methods *)

(** Unfolds the operations of the object monad. *)
Ltac unfold_M :=
  unfold mbind, M_bind, mret, M_ret, get_self, print, set_epsilon_closure in *.

Lemma M_bind_run {A B} (m : M A) (k : A → M B) w :
  (m ≫= k) w = k (m w).1 (m w).2.
Proof. unfold mbind, M_bind. by destruct (m w). Qed.

Lemma M_ret_run {A} (a : A) (w : world) : (mret a : M A) w = (a, w).
Proof. done. Qed.

Lemma with_epsilon_closures_id nfa :
  with_epsilon_closures nfa (_epsilon_closures nfa) = nfa.
Proof. by destruct nfa. Qed.

Lemma world_eta w : {| this := this w; stdout := stdout w |} = w.
Proof. by destruct w. Qed.

Lemma compute_epsilon_closure_run s w :
  _compute_epsilon_closure s w
  = match _epsilon_closures (this w) !! s with
    | Some cached => (cached, w)
    | None =>
        let c := bfs_closure (transitions (this w)) s in
        (c, {| this := with_epsilon_closures (this w)
                         (<[s := c]> (_epsilon_closures (this w)));
               stdout := stdout w |})
    end.
Proof.
  unfold _compute_epsilon_closure. unfold_M.
  by destruct (_epsilon_closures (this w) !! s).
Qed.

(** What the loop of [_compute_all_epsilon_closures] leaves in the cache:
    old entries are kept, each state of the loop without one gets the result
    of its search. *)
Lemma compute_closures_run (l : list state) w :
  ∃ m, for_each l (λ s, _ ← _compute_epsilon_closure s; mret tt) w
       = (tt, {| this := with_epsilon_closures (this w) m; stdout := stdout w |})
     ∧ ∀ s, m !! s
            = match _epsilon_closures (this w) !! s with
              | Some c => Some c
              | None => if decide (s ∈ l)
                        then Some (bfs_closure (transitions (this w)) s)
                        else None
              end.
Proof.
  revert w. induction l as [|x l IH]; intros w; cbn [for_each].
  - exists (_epsilon_closures (this w)). split.
    + unfold_M. by rewrite with_epsilon_closures_id, world_eta.
    + intros s. destruct (_epsilon_closures (this w) !! s); [done|].
      by rewrite decide_False by apply not_elem_of_nil.
  - rewrite !M_bind_run, compute_epsilon_closure_run.
    destruct (_epsilon_closures (this w) !! x) as [c|] eqn:Ex;
      cbn zeta; cbn [fst snd]; rewrite M_ret_run; cbn [fst snd].
    + destruct (IH w) as (m & Hrun & Hm). exists m. split; [done|].
      intros s. rewrite Hm. destruct (_epsilon_closures (this w) !! s) eqn:Es; [done|].
      assert (s ≠ x) by congruence.
      destruct (decide (s ∈ l)) as [Hin|Hin].
      * by rewrite decide_True by by right.
      * rewrite decide_False; [done|]. by intros [?|?]%elem_of_cons.
    + match goal with |- context [for_each l _ ?w'] =>
        destruct (IH w') as (m & Hrun & Hm) end.
      cbn [this stdout with_epsilon_closures states alphabet transitions
             start_state accept_states _epsilon_closures] in *.
      exists m. split; [by rewrite Hrun|].
      intros s. rewrite Hm. destruct (decide (s = x)) as [->|Hne].
      * rewrite lookup_insert_eq, Ex. by rewrite decide_True by left.
      * rewrite lookup_insert_ne by done.
        destruct (_epsilon_closures (this w) !! s); [done|].
        destruct (decide (s ∈ l)) as [Hin|Hin].
        -- by rewrite decide_True by by right.
        -- rewrite decide_False; [done|]. by intros [?|?]%elem_of_cons.
Qed.

Lemma NFA_init_Ok st al tr s0 acc nfa :
  NFA_init st al tr s0 acc = Ok nfa →
  states nfa = st ∧ alphabet nfa = al ∧ transitions nfa = tr
  ∧ start_state nfa = s0 ∧ accept_states nfa = acc ∧ constructed nfa.
Proof.
  unfold NFA_init. intros H.
  case_bool_decide as Hs; [done|]. case_bool_decide as Ha; [done|].
  destruct (existsb _ _) eqn:Hsym; [done|].
  unfold _compute_all_epsilon_closures in H. rewrite M_bind_run in H.
  unfold get_self in H. cbn [fst snd this states] in H.
  match type of H with context [for_each ?l _ ?w] =>
    destruct (compute_closures_run l w) as (m & Hrun & Hm) end.
  rewrite Hrun in H. cbn [this stdout snd states transitions _epsilon_closures] in *.
  injection H as <-. cbn.
  split_and!; try done. constructor; cbn.
  - first [done|by apply dec_stable].
  - first [done|by apply dec_stable].
  - intros s a T HT. apply dec_stable. intros Hna.
    assert (existsb (λ kv : (state * option symbol) * gset state,
                       match kv.1.2 with
                       | Some symbol => bool_decide (symbol ∉ al)
                       | None => false
                       end) (map_to_list tr) = true) as Hex; [|congruence].
    apply existsb_exists. exists ((s, Some a), T). split.
    + apply list_elem_of_In. by apply elem_of_map_to_list.
    + cbn. by apply bool_decide_eq_true.
  - intros s. rewrite Hm, lookup_empty.
    destruct (decide (s ∈ st)) as [Hin|Hin].
    + by rewrite decide_True by by apply elem_of_elements.
    + rewrite decide_False; [done|]. by rewrite elem_of_elements.
Qed.

(** Conversely, arguments that pass the three checks always give an
    automaton: the constructor raises nothing else and always returns. *)
Lemma NFA_init_total st al tr s0 acc :
  s0 ∈ st → acc ⊆ st →
  (∀ s a T, tr !! (s, Some a) = Some T → a ∈ al) →
  ∃ nfa, NFA_init st al tr s0 acc = Ok nfa.
Proof.
  intros Hs Ha Hsym. unfold NFA_init.
  rewrite bool_decide_eq_false_2 by auto.
  rewrite bool_decide_eq_false_2 by auto.
  destruct (existsb _ _) eqn:Hex; [|by eexists].
  apply existsb_exists in Hex as ([[s [a|]] T] & Hin & Hbad); cbn in Hbad; [|done].
  apply bool_decide_eq_true in Hbad. destruct Hbad.
  apply list_elem_of_In, elem_of_map_to_list in Hin. eauto.
Qed.

Lemma get_self_run w : get_self w = (this w, w).
Proof. done. Qed.

Lemma get_epsilon_closure_set_world X w : (_get_epsilon_closure_set X w).2 = w.
Proof. done. Qed.

(** Unfolds the sequencing of the object monad in the goal. *)
Ltac run_M :=
  repeat first
    [ rewrite M_bind_run | rewrite M_ret_run | rewrite get_self_run
    | rewrite get_epsilon_closure_set_world
    | progress cbn [fst snd this stdout] ].

Lemma elem_of_get_epsilon_closure_set X w t :
  t ∈ (_get_epsilon_closure_set X w).1
  ↔ ∃ s, s ∈ X ∧ t ∈ default {[s]} (_epsilon_closures (this w) !! s).
Proof.
  unfold _get_epsilon_closure_set. run_M. rewrite elem_of_foldl_union.
  setoid_rewrite elem_of_elements. set_solver.
Qed.

Lemma get_epsilon_closure_set_frame X w :
  (_get_epsilon_closure_set X w).1
  = (_get_epsilon_closure_set X {| this := this w; stdout := [] |}).1.
Proof. done. Qed.

(** [accepts] reads the object and appends to the standard output, nothing
    else: its answer and what it prints depend on the object alone. *)
Lemma accepts_loop_frame input cur w :
  let r := accepts_loop input cur {| this := this w; stdout := [] |} in
  accepts_loop input cur w
  = (r.1, {| this := this w; stdout := stdout w ++ stdout r.2 |}).
Proof.
  revert cur w. induction input as [|c rest IH]; intros cur w; cbn [accepts_loop].
  - run_M. by rewrite app_nil_r, world_eta.
  - run_M. case_bool_decide.
    + run_M. by unfold print.
    + run_M. rewrite (get_epsilon_closure_set_frame _ w).
      case_bool_decide.
      * run_M. by rewrite app_nil_r, world_eta.
      * rewrite (IH _ w). by rewrite (IH _ {| this := this w; stdout := [] |}).
Qed.

Lemma accepts_frame input w :
  let r := accepts input {| this := this w; stdout := [] |} in
  accepts input w = (r.1, {| this := this w; stdout := stdout w ++ stdout r.2 |}).
Proof.
  unfold accepts. run_M. rewrite (get_epsilon_closure_set_frame _ w).
  rewrite (accepts_loop_frame _ _ w).
  by rewrite (accepts_loop_frame _ _ {| this := this w; stdout := [] |}).
Qed.

(** A symbol outside the alphabet makes [accepts] answer [False]. *)
Lemma accepts_loop_invalid input cur w :
  (∃ c, c ∈ input ∧ [c] ∉ alphabet (this w)) →
  (accepts_loop input cur w).1 = false.
Proof.
  revert cur w. induction input as [|c rest IH]; intros cur w (x & Hx & Hbad).
  - by apply elem_of_nil in Hx.
  - cbn [accepts_loop]. run_M.
    case_bool_decide as Hc; [by run_M|]. run_M.
    case_bool_decide; [done|].
    apply IH. exists x. split; [|done].
    apply elem_of_cons in Hx as [->|?]; [|done]. by destruct Hbad.
Qed.

(** ** The subset simulation and the code *)

Lemma elem_of_spec_closure closure_of X t :
  t ∈ spec_closure closure_of X ↔ ∃ s, s ∈ X ∧ t ∈ closure_of s.
Proof.
  unfold spec_closure. rewrite elem_of_union_list. split.
  - intros (T & HT & Ht). apply list_elem_of_fmap in HT as (s & -> & Hs).
    exists s. by rewrite <- elem_of_elements.
  - intros (s & Hs & Ht). exists (closure_of s). split; [|done].
    apply list_elem_of_fmap. exists s. by rewrite elem_of_elements.
Qed.

Lemma elem_of_spec_next nfa X sym t :
  t ∈ spec_next nfa X sym
  ↔ ∃ s, s ∈ X ∧ t ∈ transitions_get (transitions nfa) (s, Some sym).
Proof.
  unfold spec_next. rewrite elem_of_union_list. split.
  - intros (T & HT & Ht). apply list_elem_of_fmap in HT as (s & -> & Hs).
    exists s. by rewrite <- elem_of_elements.
  - intros (s & Hs & Ht). eexists. split; [|exact Ht].
    apply list_elem_of_fmap. exists s. by rewrite elem_of_elements.
Qed.

Lemma spec_next_targets nfa X sym : spec_next nfa X sym ⊆ targets (transitions nfa).
Proof.
  intros t (s & _ & Ht)%elem_of_spec_next.
  by apply (transitions_get_targets _ (s, Some sym)).
Qed.

Lemma elem_of_next_states nfa X sym t :
  t ∈ next_states nfa X sym
  ↔ ∃ s, s ∈ X ∧ t ∈ transitions_get (transitions nfa) (s, Some sym).
Proof.
  unfold next_states. rewrite elem_of_foldl_union.
  setoid_rewrite elem_of_elements. set_solver.
Qed.

Lemma next_states_spec nfa X sym : next_states nfa X sym = spec_next nfa X sym.
Proof.
  apply set_eq. intros t. by rewrite elem_of_next_states, elem_of_spec_next.
Qed.

Lemma no_eps_edge_rtc tr s t :
  transitions_get tr (s, None) = ∅ → rtc (eps_edge tr) s t → t = s.
Proof.
  intros Hnone Hrtc. destruct Hrtc as [|x y z Hedge _]; [done|].
  unfold eps_edge in Hedge. rewrite Hnone in Hedge. by apply not_elem_of_empty in Hedge.
Qed.

(** In a constructed automaton [_get_epsilon_closure_set] is the closure of
    a set of such states. *)
Lemma get_epsilon_closure_set_spec closure_of X w :
  constructed (this w) →
  is_epsilon_closure (transitions (this w)) closure_of →
  (∀ s, s ∈ X → closure_known (this w) s) →
  (_get_epsilon_closure_set X w).1 = spec_closure closure_of X.
Proof.
  intros Hc Hcl HX. apply set_eq. intros t.
  rewrite elem_of_get_epsilon_closure_set, elem_of_spec_closure.
  assert (∀ s, s ∈ X →
            default {[s]} (_epsilon_closures (this w) !! s) = closure_of s) as Heq.
  { intros s Hs. rewrite (constructed_closures _ Hc). case_decide as Hin; cbn.
    - apply set_eq. intros u. by rewrite elem_of_bfs_closure, (Hcl s u).
    - destruct (HX s Hs) as [?|Hnone]; [done|]. apply set_eq. intros u.
      rewrite elem_of_singleton, (Hcl s u). split; [by intros ->|].
      by apply no_eps_edge_rtc. }
  split; intros (s & Hs & Ht); exists s; (split; [done|]).
  - by rewrite <- Heq.
  - by rewrite Heq.
Qed.

Lemma accepts_loop_spec closure_of input cur w :
  constructed (this w) →
  is_epsilon_closure (transitions (this w)) closure_of →
  destinations_known (this w) →
  Forall (λ c, [c] ∈ alphabet (this w)) input →
  accepts_loop input cur w = (spec_run closure_of (this w) cur input, w).
Proof.
  intros Hc Hcl Htg. revert cur. induction input as [|c rest IH]; intros cur Hin.
  - cbn [accepts_loop spec_run]. run_M. f_equal. apply bool_decide_ext.
    by rewrite disjoint_intersection_L.
  - apply Forall_cons in Hin as [Hc0 Hrest].
    cbn [accepts_loop spec_run]. run_M.
    rewrite bool_decide_eq_false_2 by auto. run_M.
    rewrite (get_epsilon_closure_set_spec closure_of); [|done..|].
    + rewrite next_states_spec. case_bool_decide; [by run_M|]. by apply IH.
    + intros t (s & _ & Ht)%elem_of_next_states. by eapply Htg.
Qed.

(** ** Loops that may raise *)

Lemma rfold_preserves {A B} (body : B → A → result B) (P : B → Prop) l acc b' :
  (∀ b x b', P b → body b x = Ok b' → P b') →
  P acc → rfold body acc l = Ok b' → P b'.
Proof.
  intros Hbody. revert acc. induction l as [|x l IH]; intros acc Hacc; cbn.
  - by intros [= <-].
  - destruct (body acc x) as [b|e] eqn:E; cbn; [|done]. eauto.
Qed.

Lemma rfold_total {A B} (body : B → A → result B) (P : B → Prop) l acc :
  (∀ b x, x ∈ l → P b → ∃ b', body b x = Ok b' ∧ P b') →
  P acc → ∃ b', rfold body acc l = Ok b' ∧ P b'.
Proof.
  revert acc. induction l as [|x l IH]; intros acc Hbody Hacc; cbn.
  - eauto.
  - destruct (Hbody acc x) as (b & -> & Hb); [left|done|]. cbn.
    apply IH; [|done]. intros b0 y Hy. apply Hbody. by right.
Qed.

(** ** What the parser produces *)

Lemma grammar_Forall_lookup Q (g : grammar) head ps p :
  grammar_Forall Q g → (head, ps) ∈ g → p ∈ ps → Q p.
Proof.
  intros Hg Hin Hp. unfold grammar_Forall in Hg. rewrite Forall_forall in Hg.
  specialize (Hg _ Hin). cbn in Hg. rewrite Forall_forall in Hg. auto.
Qed.

Lemma dict_append_Forall Q (g : grammar) head p :
  grammar_Forall Q g → Q p → grammar_Forall Q (dict_append g head p).
Proof.
  intros Hg Hp. induction g as [|[h ps] g IH]; cbn.
  - repeat constructor. done.
  - apply Forall_cons in Hg as [Hps Hg]. case_decide.
    + constructor; [|done]. cbn in *. apply Forall_app. by repeat constructor.
    + constructor; [done|]. by apply IH.
Qed.

Section ParserProperties.

Variable lower : str → str.
Variables V Σ : gset str.

Lemma parse_production_legal line_num head g prod g' :
  grammar_Forall (legal_production V Σ) g →
  parse_production lower V Σ line_num head g prod = Ok g' →
  grammar_Forall (legal_production V Σ) g'.
Proof.
  intros Hg. unfold parse_production.
  destruct (_ || _).
  { intros [= <-]. apply dict_append_Forall; [done|by left]. }
  destruct prod as [|c0 [|c1 [|c2 rest]]]; [done| | |done].
  - case_bool_decide as Ht; [done|]. intros [= <-].
    apply dict_append_Forall; [done|]. right; left. eexists. split; [done|].
    stable.
  - case_bool_decide as Ht; [done|]. case_bool_decide as Hn; [done|].
    intros [= <-]. apply dict_append_Forall; [done|]. right; right.
    do 2 eexists. split_and!; stable.
Qed.

Lemma parse_line_legal st line_num line st' :
  grammar_Forall (legal_production V Σ) st.1 →
  parse_line lower V Σ st line_num line = Ok st' →
  grammar_Forall (legal_production V Σ) st'.1.
Proof.
  destruct st as [g defined]. intros Hg. unfold parse_line.
  destruct (_ || _); [by intros [= <-]|].
  destruct (split_once _ _) as [[head body]|]; [|done].
  case_bool_decide; [done|]. case_bool_decide; [done|].
  destruct (_ || _); [done|].
  destruct (rfold _ _ _) as [g1|e] eqn:E; cbn; [|done]. intros [= <-]. cbn.
  revert E. apply rfold_preserves; [|done].
  intros b x b' Hb. by apply parse_production_legal.
Qed.

Lemma parse_lines_legal line_num lines st st' :
  grammar_Forall (legal_production V Σ) st.1 →
  parse_lines lower V Σ line_num lines st = Ok st' →
  grammar_Forall (legal_production V Σ) st'.1.
Proof.
  revert line_num st. induction lines as [|line rest IH]; intros n st Hst; cbn.
  - by intros [= <-].
  - destruct (parse_line _ _ _ _ _ _) as [st1|e] eqn:E; cbn; [|done].
    apply IH. by eapply parse_line_legal.
Qed.

End ParserProperties.

Lemma parse_grammar_legal lower lines V Σ S g :
  parse_grammar lower lines V Σ S = Ok g →
  grammar_Forall (legal_production V Σ) g.
Proof.
  unfold parse_grammar. repeat (case_bool_decide; [done|]).
  destruct (parse_lines _ _ _ _ _ _) as [st|e] eqn:E; cbn; [|done].
  intros [= <-]. eapply parse_lines_legal; [|exact E]. constructor.
Qed.

(** The three preconditions hold of every successful parse. *)
Lemma parse_grammar_declarations lower lines V Σ S g :
  parse_grammar lower lines V Σ S = Ok g → V ≠ ∅ ∧ S ∈ V ∧ Σ ## V.
Proof.
  unfold parse_grammar.
  case_bool_decide as H1; [done|]. case_bool_decide as H2; [done|].
  case_bool_decide as H3; [done|]. intros _.
  split_and!; stable.
Qed.

(** ** What the builder produces *)

Lemma elem_of_targets_add_transition tr key t t' :
  t' ∈ targets (add_transition tr key t) ↔ t' = t ∨ t' ∈ targets tr.
Proof.
  unfold add_transition. rewrite !elem_of_targets. split.
  - intros (k & T & Hk & Ht). destruct (decide (key = k)) as [->|Hne].
    + rewrite lookup_insert_eq in Hk. injection Hk as <-.
      apply elem_of_union in Ht as [->%elem_of_singleton|Ht]; [by left|].
      right. apply elem_of_targets. by apply (transitions_get_targets tr k).
    + rewrite lookup_insert_ne in Hk by done. right. eauto.
  - intros [->|(k & T & Hk & Ht)].
    + exists key. eexists. rewrite lookup_insert_eq. split; [done|].
      apply elem_of_union. left. by apply elem_of_singleton.
    + destruct (decide (key = k)) as [->|Hne].
      * exists k. eexists. rewrite lookup_insert_eq. split; [done|].
        apply elem_of_union. right. unfold transitions_get. by rewrite Hk.
      * exists k, T. by rewrite lookup_insert_ne.
Qed.

Lemma add_transition_is_Some tr key t k :
  is_Some (add_transition tr key t !! k) ↔ k = key ∨ is_Some (tr !! k).
Proof.
  unfold add_transition. rewrite lookup_insert_is_Some. split.
  - intros [->|[_ ?]]; auto.
  - intros [->|?]; [by left|]. destruct (decide (key = k)); auto.
Qed.

Lemma build_production_within V Σ head tr p :
  legal_production V Σ p → transitions_within V Σ tr →
  ∃ tr', build_production head tr p = Ok tr' ∧ transitions_within V Σ tr'.
Proof.
  intros [->|[(a & -> & Ha)|(a & n & -> & Ha & Hn)]] [Ht Hs];
    cbn [build_production]; (eexists; split; [done|]); split.
  - intros t [->|?]%elem_of_targets_add_transition; auto.
  - intros s a [[=]|?]%add_transition_is_Some; eauto.
  - intros t [->|?]%elem_of_targets_add_transition; auto.
  - intros s b [[= ? ?]|?]%add_transition_is_Some; subst; eauto.
  - intros t [->|?]%elem_of_targets_add_transition; auto.
  - intros s b [[= ? ?]|?]%add_transition_is_Some; subst; eauto.
Qed.

Lemma build_transitions_within V Σ (g : grammar) :
  grammar_Forall (legal_production V Σ) g →
  ∃ tr, rfold (λ tr item, rfold (build_production item.1) tr item.2) ∅ g = Ok tr
        ∧ transitions_within V Σ tr.
Proof.
  intros Hg. apply rfold_total.
  - intros tr [head ps] Hin Htr. cbn. apply rfold_total; [|done].
    intros tr' p Hp Htr'. apply build_production_within; [|done].
    by eapply grammar_Forall_lookup.
  - split.
    + intros t (k & T & Hk & _)%elem_of_targets. by rewrite lookup_empty in Hk.
    + intros s a [T HT]. by rewrite lookup_empty in HT.
Qed.

Lemma NFA_init_not_RuntimeError st al tr s0 acc m :
  NFA_init st al tr s0 acc ≠ Raise (RuntimeError m).
Proof.
  unfold NFA_init. repeat (case_bool_decide; [done|]).
  by destruct (existsb _ _).
Qed.

(** The steps of a successful build. *)
Lemma build_nfa_from_grammar_Ok (g : grammar) V Σ S nfa :
  build_nfa_from_grammar g V Σ S = Ok nfa →
  (FINAL_STATE_MARKER ∉ V)
  ∧ (∃ tr, rfold (λ tr item, rfold (build_production item.1) tr item.2) ∅ g = Ok tr
           ∧ NFA_init ({[FINAL_STATE_MARKER]} ∪ V) Σ tr S {[FINAL_STATE_MARKER]}
             = Ok nfa).
Proof.
  unfold build_nfa_from_grammar. case_bool_decide as HV; [done|].
  destruct (rfold _ _ _) as [tr|e] eqn:E; cbn; [|done]. eauto.
Qed.

(** A grammar of legal productions over declarations that passed the checks
    of the parser always builds, unless a non-terminal is named as the
    marker. *)
Lemma build_nfa_from_grammar_total (g : grammar) V Σ S :
  grammar_Forall (legal_production V Σ) g → S ∈ V → FINAL_STATE_MARKER ∉ V →
  ∃ nfa, build_nfa_from_grammar g V Σ S = Ok nfa.
Proof.
  intros Hg HS HF. unfold build_nfa_from_grammar.
  rewrite bool_decide_eq_false_2 by done.
  destruct (build_transitions_within V Σ g Hg) as (tr & -> & Ht & Hs). cbn.
  apply NFA_init_total; [set_solver|set_solver|]. intros s a T HT. by eapply Hs.
Qed.

(** ** The example automata *)

Lemma scenario1_parsed :
  parse_grammar ascii_lower scenario1_lines scenario1_V scenario1_Σ (lit "S")
  = Ok scenario1_grammar.
Proof. vm_compute. reflexivity. Qed.

Lemma scenario1_built :
  build_nfa_from_grammar scenario1_grammar scenario1_V scenario1_Σ (lit "S")
  = Ok scenario1_nfa.
Proof. vm_compute. reflexivity. Qed.

Lemma scenario2_parsed :
  parse_grammar ascii_lower scenario2_lines scenario2_V scenario2_Σ (lit "S")
  = Ok scenario2_grammar.
Proof. vm_compute. reflexivity. Qed.

Lemma scenario2_built :
  build_nfa_from_grammar scenario2_grammar scenario2_V scenario2_Σ (lit "S")
  = Ok scenario2_nfa.
Proof. vm_compute. reflexivity. Qed.

Lemma dangling_constructed :
  NFA_init dangling_states dangling_alphabet dangling_transitions (lit "S")
    {[lit "F"]} = Ok dangling_nfa.
Proof. vm_compute. reflexivity. Qed.

(** ** The parser uses [lower] on the productions only *)

Lemma Forall_lstrip (P : codepoint → Prop) s : Forall P s → Forall P (lstrip s).
Proof.
  induction 1 as [|c s Hc Hs IH]; cbn; [done|]. destruct (isspace c); by try constructor.
Qed.

Lemma Forall_strip (P : codepoint → Prop) s : Forall P s → Forall P (strip s).
Proof.
  intros H. unfold strip.
  by apply Forall_rev, Forall_lstrip, Forall_rev, Forall_lstrip.
Qed.

Lemma Forall_split_once (P : codepoint → Prop) sep s h b :
  Forall P s → split_once sep s = Some (h, b) → Forall P h ∧ Forall P b.
Proof.
  intros Hs. revert h b. induction Hs as [|c s Hc Hs IH]; intros h b; cbn.
  - destruct (startswith sep []); [|done]. intros [= <- <-].
    rewrite drop_nil. by split.
  - destruct (startswith sep (c :: s)).
    + intros [= <- <-]. split; [done|]. apply Forall_drop. by constructor.
    + destruct (split_once sep s) as [[h' b']|]; [|done]. intros [= <- <-].
      destruct (IH h' b' eq_refl). split; [by constructor|done].
Qed.

Lemma Forall_split_char (P : codepoint → Prop) c s :
  Forall P s → Forall (Forall P) (split_char c s).
Proof.
  induction 1 as [|x s Hx Hs IH]; cbn; [by repeat constructor|].
  destruct (x =? c)%N; [by constructor|].
  destruct (split_char c s) as [|p' ps]; [by repeat constructor|].
  apply Forall_cons in IH as [Hp Hps]. constructor; [by constructor|done].
Qed.

Lemma rfold_ext_Forall {A B} (P : A → Prop) (f g : B → A → result B) l acc :
  (∀ b x, P x → f b x = g b x) → Forall P l → rfold f acc l = rfold g acc l.
Proof.
  intros Hfg Hl. revert acc. induction Hl as [|x l Hx Hl IH]; intros acc; cbn.
  - done.
  - rewrite Hfg by done. destruct (g acc x); cbn; [apply IH|done].
Qed.

Section LowerExt.

Variables lower lower' : str → str.
Hypothesis lower_ascii : ∀ s, Forall is_ascii s → lower s = lower' s.
Variables V Σ : gset str.

Lemma parse_line_lower_ext st line_num line :
  Forall is_ascii line →
  parse_line lower V Σ st line_num line = parse_line lower' V Σ st line_num line.
Proof.
  intros Hline. destruct st as [g defined]. unfold parse_line.
  destruct (_ || _); [done|].
  destruct (split_once _ _) as [[head body]|] eqn:E; [|done].
  apply (Forall_split_once is_ascii) in E as [_ Hbody]; [|by apply Forall_strip].
  repeat (case_bool_decide; [done|]). destruct (_ || _); [done|].
  rewrite (rfold_ext_Forall (Forall is_ascii)
             (parse_production lower V Σ line_num (strip head))
             (parse_production lower' V Σ line_num (strip head))); [done| |].
  - intros b x Hx. unfold parse_production. by rewrite lower_ascii.
  - apply Forall_fmap. eapply Forall_impl; [by apply Forall_split_char|].
    intros x Hx. by apply Forall_strip.
Qed.

Lemma parse_lines_lower_ext line_num lines st :
  Forall (Forall is_ascii) lines →
  parse_lines lower V Σ line_num lines st = parse_lines lower' V Σ line_num lines st.
Proof.
  intros Hl. revert line_num st.
  induction Hl as [|line rest Hline Hrest IH]; intros n st; cbn; [done|].
  rewrite parse_line_lower_ext by done.
  destruct (parse_line lower' V Σ st n line); cbn; [apply IH|done].
Qed.

End LowerExt.

Lemma parse_grammar_lower_ext lower lower' lines V Σ S :
  (∀ s, Forall is_ascii s → lower s = lower' s) →
  Forall (Forall is_ascii) lines →
  parse_grammar lower lines V Σ S = parse_grammar lower' lines V Σ S.
Proof.
  intros Hlower Hlines. unfold parse_grammar.
  by rewrite (parse_lines_lower_ext lower lower').
Qed.

Lemma scenario1_lines_ascii : Forall (Forall is_ascii) scenario1_lines.
Proof. repeat constructor. Qed.

Lemma scenario2_lines_ascii : Forall (Forall is_ascii) scenario2_lines.
Proof. repeat constructor. Qed.

(** ** The claims *)

(** C1.  Scenario 1, for Python's [str.lower] or any other lowering function
    that agrees with it on ASCII text: terminals a, b, non-terminals S, A,
    start symbol S, rules S -> aA | b and A -> b.  Parsing succeeds, building
    succeeds, and the automaton accepts ab and b and rejects a, the empty
    string and aab; nothing is printed. *)
Theorem scenario1_accepts (lower : str → str) :
  (∀ s, Forall is_ascii s → lower s = ascii_lower s) →
  ∃ grammar_dict nfa,
    parse_grammar lower scenario1_lines scenario1_V scenario1_Σ (lit "S")
    = Ok grammar_dict
    ∧ build_nfa_from_grammar grammar_dict scenario1_V scenario1_Σ (lit "S")
      = Ok nfa
    ∧ let w := {| this := nfa; stdout := [] |} in
      accepts (lit "ab") w = (true, w)
      ∧ accepts (lit "b") w = (true, w)
      ∧ accepts (lit "a") w = (false, w)
      ∧ accepts (lit "") w = (false, w)
      ∧ accepts (lit "aab") w = (false, w).
Proof.
  intros Hlower. exists scenario1_grammar, scenario1_nfa.
  rewrite (parse_grammar_lower_ext lower ascii_lower)
    by auto using scenario1_lines_ascii.
  split; [exact scenario1_parsed|]. split; [exact scenario1_built|].
  cbn zeta. split_and!; vm_compute; reflexivity.
Qed.

Lemma scenario1_accepts_witness :
  ∃ grammar_dict nfa,
    parse_grammar ascii_lower scenario1_lines scenario1_V scenario1_Σ (lit "S")
    = Ok grammar_dict
    ∧ build_nfa_from_grammar grammar_dict scenario1_V scenario1_Σ (lit "S")
      = Ok nfa
    ∧ let w := {| this := nfa; stdout := [] |} in
      accepts (lit "ab") w = (true, w)
      ∧ accepts (lit "b") w = (true, w)
      ∧ accepts (lit "a") w = (false, w)
      ∧ accepts (lit "") w = (false, w)
      ∧ accepts (lit "aab") w = (false, w).
Proof. apply (scenario1_accepts ascii_lower). reflexivity. Defined.

(** C3.  Scenario 2, for any lowering function that agrees with Python's on
    ASCII text: terminal a, non-terminal S, start symbol S, the single rule
    S -> epsilon.  The cached epsilon closure of the start state contains the
    final marker, so the empty string is accepted without consuming a symbol;
    the string a is rejected. *)
Theorem scenario2_accepts (lower : str → str) :
  (∀ s, Forall is_ascii s → lower s = ascii_lower s) →
  ∃ grammar_dict nfa,
    parse_grammar lower scenario2_lines scenario2_V scenario2_Σ (lit "S")
    = Ok grammar_dict
    ∧ build_nfa_from_grammar grammar_dict scenario2_V scenario2_Σ (lit "S")
      = Ok nfa
    ∧ (∃ c, _epsilon_closures nfa !! start_state nfa = Some c
            ∧ FINAL_STATE_MARKER ∈ c)
    ∧ let w := {| this := nfa; stdout := [] |} in
      _get_epsilon_closure_set {[start_state nfa]} w
      = ({[lit "S"; FINAL_STATE_MARKER]}, w)
      ∧ accepts (lit "") w = (true, w)
      ∧ accepts (lit "a") w = (false, w).
Proof.
  intros Hlower. exists scenario2_grammar, scenario2_nfa.
  rewrite (parse_grammar_lower_ext lower ascii_lower)
    by auto using scenario2_lines_ascii.
  split; [exact scenario2_parsed|]. split; [exact scenario2_built|].
  split.
  - exists {[lit "S"; FINAL_STATE_MARKER]}. split; [by vm_compute|].
    apply elem_of_union. right. by apply elem_of_singleton.
  - cbn zeta. split_and!; vm_compute; reflexivity.
Qed.

Lemma scenario2_accepts_witness :
  ∃ grammar_dict nfa,
    parse_grammar ascii_lower scenario2_lines scenario2_V scenario2_Σ (lit "S")
    = Ok grammar_dict
    ∧ build_nfa_from_grammar grammar_dict scenario2_V scenario2_Σ (lit "S")
      = Ok nfa
    ∧ (∃ c, _epsilon_closures nfa !! start_state nfa = Some c
            ∧ FINAL_STATE_MARKER ∈ c)
    ∧ let w := {| this := nfa; stdout := [] |} in
      _get_epsilon_closure_set {[start_state nfa]} w
      = ({[lit "S"; FINAL_STATE_MARKER]}, w)
      ∧ accepts (lit "") w = (true, w)
      ∧ accepts (lit "a") w = (false, w).
Proof. apply (scenario2_accepts ascii_lower). reflexivity. Defined.

(** C5.  In a constructed automaton every state [s] of the state set has a
    cached closure [c]; [c] contains [s]; [c] is the singleton of [s] when [s]
    has no outgoing epsilon edge; [c] is closed under epsilon edges and
    [_get_epsilon_closure_set] maps [c] to [c]; computing the closure of [s]
    returns [c] and leaves the object as it is, the first time and again; a
    fresh search gives [c] too, and its loop ends with an empty queue. *)
Theorem epsilon_closure_cached_closed st al tr s0 acc nfa s w :
  NFA_init st al tr s0 acc = Ok nfa → s ∈ states nfa → this w = nfa →
  ∃ c, _epsilon_closures nfa !! s = Some c
       ∧ s ∈ c
       ∧ (transitions_get (transitions nfa) (s, None) = ∅ → c = {[s]})
       ∧ (∀ t u, t ∈ c → eps_edge (transitions nfa) t u → u ∈ c)
       ∧ _get_epsilon_closure_set c w = (c, w)
       ∧ _compute_epsilon_closure s w = (c, w)
       ∧ (c1 ← _compute_epsilon_closure s;
          c2 ← _compute_epsilon_closure s;
          mret (c1, c2)) w = ((c, c), w)
       ∧ bfs_closure (transitions nfa) s = c
       ∧ queue (bfs_while (bfs_fuel (transitions nfa)) (transitions nfa)
                  (bfs_init s)) = [].
Proof.
  intros (_ & _ & _ & _ & _ & Hc)%NFA_init_Ok Hs <-.
  exists (bfs_closure (transitions (this w)) s).
  assert (_epsilon_closures (this w) !! s
          = Some (bfs_closure (transitions (this w)) s)) as Hlook.
  { by rewrite (constructed_closures _ Hc), decide_True. }
  assert (_compute_epsilon_closure s w
          = (bfs_closure (transitions (this w)) s, w)) as Hrun.
  { by rewrite compute_epsilon_closure_run, Hlook. }
  split_and!; try done.
  - by apply elem_of_bfs_closure.
  - intros Hnone. apply set_eq. intros t.
    rewrite elem_of_bfs_closure, elem_of_singleton. split.
    + by apply no_eps_edge_rtc.
    + by intros ->.
  - intros t u Ht Hedge. apply elem_of_bfs_closure.
    eapply rtc_r; [by apply elem_of_bfs_closure|done].
  - rewrite (surjective_pairing (_get_epsilon_closure_set _ w)).
    rewrite get_epsilon_closure_set_world. f_equal.
    apply set_eq. intros t. rewrite elem_of_get_epsilon_closure_set. split.
    + intros (u & Hu & Ht). rewrite (constructed_closures _ Hc) in Ht.
      case_decide; cbn in Ht.
      * apply elem_of_bfs_closure. etrans; by apply elem_of_bfs_closure.
      * by apply elem_of_singleton in Ht as ->.
    + intros Ht. exists t. split; [done|]. rewrite (constructed_closures _ Hc).
      case_decide; cbn; [by apply elem_of_bfs_closure|by apply elem_of_singleton].
  - run_M. rewrite Hrun. run_M. rewrite Hrun. by run_M.
  - apply bfs_while_exits.
Qed.

Lemma epsilon_closure_cached_closed_witness :
  ∃ c, _epsilon_closures scenario2_nfa !! lit "S" = Some c
       ∧ lit "S" ∈ c
       ∧ (transitions_get (transitions scenario2_nfa) (lit "S", None) = ∅
          → c = {[lit "S"]})
       ∧ (∀ t u, t ∈ c → eps_edge (transitions scenario2_nfa) t u → u ∈ c)
       ∧ _get_epsilon_closure_set c {| this := scenario2_nfa; stdout := [] |}
         = (c, {| this := scenario2_nfa; stdout := [] |})
       ∧ _compute_epsilon_closure (lit "S")
           {| this := scenario2_nfa; stdout := [] |}
         = (c, {| this := scenario2_nfa; stdout := [] |})
       ∧ (c1 ← _compute_epsilon_closure (lit "S");
          c2 ← _compute_epsilon_closure (lit "S");
          mret (c1, c2)) {| this := scenario2_nfa; stdout := [] |}
         = ((c, c), {| this := scenario2_nfa; stdout := [] |})
       ∧ bfs_closure (transitions scenario2_nfa) (lit "S") = c
       ∧ queue (bfs_while (bfs_fuel (transitions scenario2_nfa))
                  (transitions scenario2_nfa) (bfs_init (lit "S"))) = [].
Proof.
  apply (epsilon_closure_cached_closed
           ({[FINAL_STATE_MARKER]} ∪ scenario2_V) scenario2_Σ
           (transitions scenario2_nfa) (lit "S") {[FINAL_STATE_MARKER]}
           scenario2_nfa (lit "S") {| this := scenario2_nfa; stdout := [] |}).
  - vm_compute. reflexivity.
  - vm_compute. reflexivity.
  - reflexivity.
Defined.

(** C9.  [accepts] is deterministic and changes nothing of the automaton: a
    second call, made on what the first call left, returns the same boolean;
    so does a call on the same object under any other standard output; and
    after a call the object, with its states, alphabet, transitions, start
    state, accept states and closure cache, is what it was.  This holds of
    every NFA object, constructed or not. *)
Theorem accepts_deterministic_mutation_free (nfa : NFA) (out out' : list output)
    (input_string : str) :
  let first := accepts input_string {| this := nfa; stdout := out |} in
  let second := accepts input_string first.2 in
  let other := accepts input_string {| this := nfa; stdout := out' |} in
  first.1 = second.1
  ∧ first.1 = other.1
  ∧ this first.2 = nfa
  ∧ states (this first.2) = states nfa
  ∧ alphabet (this first.2) = alphabet nfa
  ∧ transitions (this first.2) = transitions nfa
  ∧ start_state (this first.2) = start_state nfa
  ∧ accept_states (this first.2) = accept_states nfa
  ∧ _epsilon_closures (this first.2) = _epsilon_closures nfa
  ∧ this second.2 = nfa.
Proof.
  cbn zeta.
  rewrite (accepts_frame input_string {| this := nfa; stdout := out |}).
  rewrite (accepts_frame input_string {| this := nfa; stdout := out' |}).
  cbn [fst snd this stdout].
  match goal with |- context [accepts input_string ?w1] =>
    match w1 with
    | {| this := nfa; stdout := _ ++ _ |} => rewrite (accepts_frame input_string w1)
    end
  end.
  cbn [fst snd this stdout]. by split_and!.
Qed.

(** [accepts] prints its warning only when the simulation reaches the
    invalid symbol: in scenario 1 the string bbc dies on its second b, and
    [accepts] returns [False] without a word about c. *)
Lemma accepts_dies_before_invalid_symbol :
  accepts (lit "bbc") {| this := scenario1_nfa; stdout := [] |}
  = (false, {| this := scenario1_nfa; stdout := [] |})
  ∧ accepts (lit "bc") {| this := scenario1_nfa; stdout := [] |}
    = (false, {| this := scenario1_nfa;
                 stdout := [Warning (lit "c") scenario1_Σ] |}).
Proof. split; vm_compute; reflexivity. Qed.

(** C8.  For any NFA object and any input string with a symbol outside the
    alphabet: [accepts] returns [False] (its model has no way to raise, the
    method has no [raise] and uses no operation that can fail) and leaves the
    object unchanged; the caller's string check prints the line reserved for
    invalid symbols, with the non-empty set of the offending characters,
    while for a string over the alphabet it prints the verdict of [accepts]:
    the two lines differ whatever the verdict. *)
Theorem invalid_symbol_soft_rejection (w : world) (input_string : str) :
  (∃ c, c ∈ input_string ∧ [c] ∉ alphabet (this w)) →
  (accepts input_string w).1 = false
  ∧ this (accepts input_string w).2 = this w
  ∧ (∃ invalid_chars,
       check_string input_string w
       = (tt, {| this := this w;
                 stdout := stdout w ++ [RejectedInvalid input_string invalid_chars] |})
       ∧ invalid_chars ≠ ∅
       ∧ (∀ s, s ∈ invalid_chars
               ↔ ∃ c, s = [c] ∧ c ∈ input_string ∧ [c] ∉ alphabet (this w))
       ∧ (∀ is_accepted,
            RejectedInvalid input_string invalid_chars
            ≠ Verdict input_string is_accepted))
  ∧ (∀ valid_string,
       Forall (λ c, [c] ∈ alphabet (this w)) valid_string →
       check_string valid_string w
       = (tt, {| this := this w;
                 stdout := stdout w
                           ++ [Verdict valid_string (accepts valid_string w).1] |})).
Proof.
  intros Hbad. split_and!.
  - unfold accepts. run_M. by apply accepts_loop_invalid.
  - by rewrite accepts_frame.
  - unfold check_string. run_M.
    assert (forallb (λ c, bool_decide ([c] ∈ alphabet (this w))) input_string
            = false) as ->.
    { apply not_true_iff_false. intros Hall. destruct Hbad as (c & Hc & Hnot).
      rewrite forallb_forall in Hall. apply Hnot.
      specialize (Hall c). rewrite <- list_elem_of_In in Hall.
      by apply (bool_decide_eq_true_1 _ (Hall Hc)). }
    cbn [negb]. eexists. split; [reflexivity|].
    assert (∀ s, s ∈ (list_to_set ((λ c, [c]) <$>
                  filter (λ c, [c] ∉ alphabet (this w)) input_string) : gset symbol)
                 ↔ ∃ c, s = [c] ∧ c ∈ input_string ∧ [c] ∉ alphabet (this w))
      as Hchars.
    { intros s. rewrite elem_of_list_to_set, list_elem_of_fmap.
      setoid_rewrite list_elem_of_filter. naive_solver. }
    split_and!; [|done|done].
    destruct Hbad as (c & Hc & Hnot). intros Hempty.
    assert ([c] ∈ (∅ : gset symbol)) as Habs; [|by apply not_elem_of_empty in Habs].
    rewrite <- Hempty. apply Hchars. eauto.
  - intros valid_string Hvalid. unfold check_string. run_M.
    assert (forallb (λ c, bool_decide ([c] ∈ alphabet (this w))) valid_string
            = true) as ->.
    { apply forallb_forall. intros c Hc%list_elem_of_In.
      rewrite Forall_forall in Hvalid. by apply bool_decide_eq_true_2, Hvalid. }
    cbn [negb]. run_M. rewrite (accepts_frame valid_string w).
    cbn [fst snd this stdout]. unfold print. cbn [this stdout].
    enough (stdout (accepts valid_string {| this := this w; stdout := [] |}).2 = [])
      as -> by by rewrite app_nil_r.
    unfold accepts. run_M.
    generalize ((_get_epsilon_closure_set {[start_state (this w)]}
                   {| this := this w; stdout := [] |}).1).
    induction Hvalid as [|c rest Hc Hrest IH]; intros cur; cbn [accepts_loop].
    + by run_M.
    + run_M. rewrite bool_decide_eq_false_2 by auto. run_M.
      case_bool_decide; [by run_M|]. apply IH.
Qed.

Lemma invalid_symbol_soft_rejection_witness :
  (accepts (lit "ac") {| this := scenario1_nfa; stdout := [] |}).1 = false.
Proof.
  apply (invalid_symbol_soft_rejection
           {| this := scenario1_nfa; stdout := [] |} (lit "ac")).
  exists 99%N. split.
  - vm_compute. apply list_elem_of_In. right. left. reflexivity.
  - vm_compute. discriminate.
Defined.

Lemma spec_closure_start closure_of nfa :
  is_epsilon_closure (transitions nfa) closure_of →
  spec_closure closure_of {[start_state nfa]} ≠ ∅.
Proof.
  intros Hcl Hempty.
  assert (start_state nfa ∈ (∅ : gset state)) as Habs;
    [|by apply not_elem_of_empty in Habs].
  rewrite <- Hempty. apply elem_of_spec_closure. exists (start_state nfa).
  split; [by apply elem_of_singleton|]. by apply Hcl.
Qed.

(** Once the current set is empty the loop is left: what follows in the
    input is not looked at, whether it is in the alphabet or not. *)
Lemma accepts_loop_short_circuit closure_of input rest cur w :
  constructed (this w) →
  is_epsilon_closure (transitions (this w)) closure_of →
  destinations_known (this w) →
  Forall (λ c, [c] ∈ alphabet (this w)) input →
  cur ≠ ∅ →
  foldl (λ current c, spec_closure closure_of (spec_next (this w) current [c]))
    cur input = ∅ →
  accepts_loop (input ++ rest) cur w = (false, w).
Proof.
  intros Hc Hcl Htg Hin. revert cur.
  induction Hin as [|c input Hc0 Hin IH]; intros cur Hne Hdead; cbn in Hdead.
  - done.
  - cbn [app accepts_loop]. run_M. rewrite bool_decide_eq_false_2 by auto.
    run_M. rewrite (get_epsilon_closure_set_spec closure_of); [|done..|].
    + rewrite next_states_spec. case_bool_decide as Hempty; [by run_M|].
      by apply IH.
    + intros t (s & _ & Ht)%elem_of_next_states. by eapply Htg.
Qed.

Lemma targets_destinations_known nfa :
  targets (transitions nfa) ⊆ states nfa → destinations_known nfa.
Proof.
  intros Htg s a t Ht. left.
  by apply Htg, (transitions_get_targets _ (s, Some a)).
Qed.

(** The two halves of the refinement, for an object that the constructor
    has set up. *)
Lemma accepts_spec closure_of input w :
  constructed (this w) →
  is_epsilon_closure (transitions (this w)) closure_of →
  destinations_known (this w) →
  Forall (λ c, [c] ∈ alphabet (this w)) input →
  accepts input w = (spec_accepts closure_of (this w) input, w).
Proof.
  intros Hc Hcl Htg Hin. unfold accepts, spec_accepts. run_M.
  rewrite (get_epsilon_closure_set_spec closure_of); [|done..|].
  - by apply accepts_loop_spec.
  - intros s ->%elem_of_singleton. left. apply Hc.
Qed.

Lemma accepts_short_circuit closure_of input rest w :
  constructed (this w) →
  is_epsilon_closure (transitions (this w)) closure_of →
  destinations_known (this w) →
  Forall (λ c, [c] ∈ alphabet (this w)) input →
  spec_current closure_of (this w) input = ∅ →
  accepts (input ++ rest) w = (false, w).
Proof.
  intros Hc Hcl Htg Hin Hdead. unfold accepts. run_M.
  rewrite (get_epsilon_closure_set_spec closure_of); [|done..|].
  - apply (accepts_loop_short_circuit closure_of); try done.
    by apply spec_closure_start.
  - intros s ->%elem_of_singleton. left. apply Hc.
Qed.

(** C2, as the code has it.  Take a constructed automaton in which every
    destination of a transition on a symbol is a member of the state set or
    has no outgoing epsilon transition; so it is whenever all destinations
    are members of the state set.  For every input string over the alphabet
    [accepts] is the subset simulation of the specification, with the epsilon
    closure being reachability through epsilon transitions: it returns what
    the simulation returns and prints nothing.  When the current set is empty
    after the input, [accepts] returns [False] on that input followed by
    anything at all, and prints nothing: it has left the loop without looking
    at the rest. *)
Theorem accepts_subset_simulation st al tr s0 acc nfa closure_of input_string w :
  NFA_init st al tr s0 acc = Ok nfa →
  (∀ s a t, t ∈ transitions_get tr (s, Some a) →
            t ∈ st ∨ transitions_get tr (t, None) = ∅) →
  is_epsilon_closure tr closure_of →
  this w = nfa →
  Forall (λ c, [c] ∈ al) input_string →
  accepts input_string w = (spec_accepts closure_of nfa input_string, w)
  ∧ (∀ rest,
       spec_current closure_of nfa input_string = ∅ →
       accepts (input_string ++ rest) w = (false, w)).
Proof.
  intros (<- & <- & <- & _ & _ & Hc)%NFA_init_Ok Htg Hcl <- Hin. split.
  - by apply accepts_spec.
  - intros rest. by apply accepts_short_circuit.
Qed.

Lemma bfs_closure_is_epsilon_closure tr : is_epsilon_closure tr (bfs_closure tr).
Proof. intros s t. apply elem_of_bfs_closure. Qed.

Lemma accepts_subset_simulation_witness :
  accepts (lit "ab") {| this := scenario1_nfa; stdout := [] |}
  = (spec_accepts (bfs_closure (transitions scenario1_nfa)) scenario1_nfa (lit "ab"),
     {| this := scenario1_nfa; stdout := [] |}).
Proof.
  refine (proj1 (accepts_subset_simulation
           ({[FINAL_STATE_MARKER]} ∪ scenario1_V) scenario1_Σ
           (transitions scenario1_nfa) (lit "S") {[FINAL_STATE_MARKER]}
           scenario1_nfa (bfs_closure (transitions scenario1_nfa)) (lit "ab")
           {| this := scenario1_nfa; stdout := [] |} _ _ _ _ _)).
  - vm_compute. reflexivity.
  - apply (targets_destinations_known scenario1_nfa).
    apply (bool_decide_unpack _). vm_compute. exact I.
  - apply bfs_closure_is_epsilon_closure.
  - reflexivity.
  - repeat constructor.
Defined.

(** C2, as stated, fails: the constructor accepts the automaton with states
    S and F, alphabet a, start S, accept state F and the transitions
    S --a--> X and X --epsilon--> F; the string a is over the alphabet; the
    epsilon closure of the set of X contains F, so the subset simulation
    accepts a; [accepts] returns [False], because X, which is not in the state
    set, has no cached closure and stands for its own closure. *)
Lemma accepts_subset_simulation_counterexample :
  NFA_init dangling_states dangling_alphabet dangling_transitions (lit "S")
    {[lit "F"]} = Ok dangling_nfa
  ∧ Forall (λ c, [c] ∈ dangling_alphabet) (lit "a")
  ∧ is_epsilon_closure dangling_transitions (bfs_closure dangling_transitions)
  ∧ accepts (lit "a") {| this := dangling_nfa; stdout := [] |}
    = (false, {| this := dangling_nfa; stdout := [] |})
  ∧ spec_accepts (bfs_closure dangling_transitions) dangling_nfa (lit "a") = true
  ∧ accepts (lit "a") {| this := dangling_nfa; stdout := [] |}
    ≠ (spec_accepts (bfs_closure dangling_transitions) dangling_nfa (lit "a"),
       {| this := dangling_nfa; stdout := [] |}).
Proof.
  split_and!.
  - exact dangling_constructed.
  - repeat constructor.
  - apply bfs_closure_is_epsilon_closure.
  - vm_compute. reflexivity.
  - vm_compute. reflexivity.
  - vm_compute. discriminate.
Qed.

Lemma rtc_eps_edge_targets tr s t :
  rtc (eps_edge tr) s t → t = s ∨ t ∈ targets tr.
Proof.
  intros [->|(u & _ & Hedge)]%rtc_inv_r; [by left|]. right.
  by apply (transitions_get_targets tr (u, None)).
Qed.

(** With all destinations in the state set, so are the cached closures. *)
Lemma constructed_closures_within nfa s c :
  constructed nfa → targets (transitions nfa) ⊆ states nfa →
  _epsilon_closures nfa !! s = Some c → c ⊆ states nfa.
Proof.
  intros Hc Htg Hlook t Ht. rewrite (constructed_closures _ Hc) in Hlook.
  case_decide as Hs; [|done]. injection Hlook as <-.
  apply elem_of_bfs_closure, rtc_eps_edge_targets in Ht as [->|Ht]; auto.
Qed.

(** What parsing and building together establish of the automaton. *)
Lemma built_constructed_within lower lines V Σ S grammar_dict nfa :
  parse_grammar lower lines V Σ S = Ok grammar_dict →
  build_nfa_from_grammar grammar_dict V Σ S = Ok nfa →
  constructed nfa
  ∧ states nfa = {[FINAL_STATE_MARKER]} ∪ V
  ∧ alphabet nfa = Σ
  ∧ (∀ t, t ∈ targets (transitions nfa) → t = FINAL_STATE_MARKER ∨ t ∈ V)
  ∧ targets (transitions nfa) ⊆ states nfa.
Proof.
  intros Hg%parse_grammar_legal (HF & tr & Htr & Hinit)%build_nfa_from_grammar_Ok.
  destruct (build_transitions_within V Σ grammar_dict Hg) as (tr' & Htr' & Hin & _).
  assert (tr' = tr) as -> by congruence.
  apply NFA_init_Ok in Hinit as (Hst & Hal & Htrans & _ & _ & Hc).
  rewrite Htrans, Hst. split_and!; try done.
  intros t [->|Ht]%Hin; set_solver.
Qed.

(** For the automata of the pipeline the subset simulation needs no side
    condition. *)
Lemma built_accepts_subset_simulation lower lines V Σ S grammar_dict nfa
    closure_of input_string w :
  parse_grammar lower lines V Σ S = Ok grammar_dict →
  build_nfa_from_grammar grammar_dict V Σ S = Ok nfa →
  is_epsilon_closure (transitions nfa) closure_of →
  this w = nfa →
  Forall (λ c, [c] ∈ Σ) input_string →
  accepts input_string w = (spec_accepts closure_of nfa input_string, w).
Proof.
  intros Hp Hb Hcl <- Hin.
  destruct (built_constructed_within _ _ _ _ _ _ _ Hp Hb)
    as (Hc & _ & Hal & _ & Htg).
  apply accepts_spec; try done.
  - by apply targets_destinations_known.
  - by rewrite Hal.
Qed.

(** C10.  In the automaton built from a parsed grammar every destination
    state of every transition is a member of the state set, a declared
    non-terminal or the final marker; therefore the cached closures, the
    closure of any set of states and the set reached over any symbol lie
    within the state set.  The constructor does not check this: it returns an
    automaton whenever the start state is a state, the accept states are
    states and the symbols of the transitions are in the alphabet, and so it
    accepts [dangling_nfa], whose destination X is not a state. *)
Theorem built_destinations_are_states lower lines V Σ S grammar_dict nfa :
  parse_grammar lower lines V Σ S = Ok grammar_dict →
  build_nfa_from_grammar grammar_dict V Σ S = Ok nfa →
  (∀ key T t, transitions nfa !! key = Some T → t ∈ T →
              t ∈ states nfa ∧ (t ∈ V ∨ t = FINAL_STATE_MARKER))
  ∧ (∀ s c, _epsilon_closures nfa !! s = Some c → c ⊆ states nfa)
  ∧ (∀ w X, this w = nfa → X ⊆ states nfa →
            (_get_epsilon_closure_set X w).1 ⊆ states nfa)
  ∧ (∀ current_states sym, next_states nfa current_states sym ⊆ states nfa)
  ∧ (∀ st al tr s0 acc,
       s0 ∈ st → acc ⊆ st →
       (∀ s a T, tr !! (s, Some a) = Some T → a ∈ al) →
       ∃ nfa', NFA_init st al tr s0 acc = Ok nfa')
  ∧ (NFA_init dangling_states dangling_alphabet dangling_transitions (lit "S")
       {[lit "F"]} = Ok dangling_nfa
     ∧ ¬ targets (transitions dangling_nfa) ⊆ states dangling_nfa).
Proof.
  intros Hp Hb.
  destruct (built_constructed_within _ _ _ _ _ _ _ Hp Hb)
    as (Hc & Hst & _ & Hin & Htg).
  split_and!.
  - intros key T t Hk Ht.
    assert (t ∈ targets (transitions nfa)) as Htt by (apply elem_of_targets; eauto).
    split; [by apply Htg|]. destruct (Hin t Htt); auto.
  - intros s c. by apply constructed_closures_within.
  - intros w X <- HX t (s & Hs & Ht)%elem_of_get_epsilon_closure_set.
    destruct (_epsilon_closures (this w) !! s) as [c|] eqn:E; cbn in Ht.
    + by eapply constructed_closures_within.
    + apply elem_of_singleton in Ht as ->. by apply HX.
  - intros cur sym t (s & _ & Ht)%elem_of_next_states.
    by apply Htg, (transitions_get_targets _ (s, Some sym)).
  - apply NFA_init_total.
  - exact dangling_constructed.
  - intros Hsub. assert (lit "X" ∈ states dangling_nfa) as Habs.
    { apply Hsub. apply elem_of_targets.
      exists (lit "S", Some (lit "a")), {[lit "X"]}. split; [done|].
      by apply elem_of_singleton. }
    revert Habs. apply (bool_decide_unpack _). vm_compute. exact I.
Qed.

Lemma built_destinations_are_states_witness :
  lit "A" ∈ states scenario1_nfa
  ∧ (lit "A" ∈ scenario1_V ∨ lit "A" = FINAL_STATE_MARKER).
Proof.
  refine (proj1 (built_destinations_are_states ascii_lower scenario1_lines
                   scenario1_V scenario1_Σ (lit "S") scenario1_grammar
                   scenario1_nfa _ _)
            (lit "S", Some (lit "a")) {[lit "A"]} (lit "A") _ _).
  - vm_compute. reflexivity.
  - vm_compute. reflexivity.
  - vm_compute. reflexivity.
  - vm_compute. reflexivity.
Defined.

(** C4.  Every production of a grammar returned by [parse_grammar] is
    [(None, None)], or a declared terminal with [None], or a declared
    terminal with a declared non-terminal; [(None, next)] never occurs; and
    [build_nfa_from_grammar] never raises its [RuntimeError] on such a
    grammar, whatever its other arguments. *)
Theorem parsed_productions_legal lower lines V Σ S grammar_dict :
  parse_grammar lower lines V Σ S = Ok grammar_dict →
  (∀ head productions p,
     (head, productions) ∈ grammar_dict → p ∈ productions →
     p = (None, None)
     ∨ (∃ terminal, p = (Some terminal, None) ∧ terminal ∈ Σ)
     ∨ (∃ terminal next,
          p = (Some terminal, Some next) ∧ terminal ∈ Σ ∧ next ∈ V))
  ∧ (∀ head productions next,
       (head, productions) ∈ grammar_dict → (None, Some next) ∉ productions)
  ∧ (∀ non_terminals terminals start_symbol m,
       build_nfa_from_grammar grammar_dict non_terminals terminals start_symbol
       ≠ Raise (RuntimeError m)).
Proof.
  intros Hg%parse_grammar_legal. split_and!.
  - intros head ps p Hin Hp.
    exact (grammar_Forall_lookup (legal_production V Σ) _ _ _ _ Hg Hin Hp).
  - intros head ps next Hin Hp.
    destruct (grammar_Forall_lookup _ _ _ _ _ Hg Hin Hp)
      as [?|[(? & ? & _)|(? & ? & ? & _)]]; congruence.
  - intros V' Σ' S' m. unfold build_nfa_from_grammar.
    case_bool_decide; [done|].
    destruct (build_transitions_within V Σ grammar_dict Hg) as (tr & -> & _).
    cbn. apply NFA_init_not_RuntimeError.
Qed.

Lemma parsed_productions_legal_witness :
  (Some (lit "a"), Some (lit "A")) = (None, None)
  ∨ (∃ terminal,
       (Some (lit "a"), Some (lit "A")) = (Some terminal, None)
       ∧ terminal ∈ scenario1_Σ)
  ∨ (∃ terminal next,
       (Some (lit "a"), Some (lit "A")) = (Some terminal, Some next)
       ∧ terminal ∈ scenario1_Σ ∧ next ∈ scenario1_V).
Proof.
  refine (proj1 (parsed_productions_legal ascii_lower scenario1_lines
                   scenario1_V scenario1_Σ (lit "S") scenario1_grammar _)
            (lit "S") [(Some (lit "a"), Some (lit "A")); (Some (lit "b"), None)]
            (Some (lit "a"), Some (lit "A")) _ _).
  - vm_compute. reflexivity.
  - left.
  - left.
Defined.

(** C6.  A successful build gives an automaton whose start state is the
    declared start symbol, whose accept states are the final marker alone and
    whose states are the declared non-terminals and the marker, which is none
    of them; the build raises [ValueError] when the marker is a declared
    non-terminal. *)
Theorem build_start_accept_states grammar_dict V Σ S :
  (∀ nfa, build_nfa_from_grammar grammar_dict V Σ S = Ok nfa →
          start_state nfa = S
          ∧ accept_states nfa = {[FINAL_STATE_MARKER]}
          ∧ states nfa = V ∪ {[FINAL_STATE_MARKER]}
          ∧ FINAL_STATE_MARKER ∉ V)
  ∧ (FINAL_STATE_MARKER ∈ V →
     build_nfa_from_grammar grammar_dict V Σ S = Raise (ValueError MarkerClash)).
Proof.
  split.
  - intros nfa (HF & tr & _ & Hinit)%build_nfa_from_grammar_Ok.
    apply NFA_init_Ok in Hinit as (-> & _ & _ & -> & -> & _).
    split_and!; try done. apply union_comm_L.
  - intros HF. unfold build_nfa_from_grammar. by rewrite bool_decide_eq_true_2.
Qed.

Lemma build_start_accept_states_witness :
  (start_state scenario1_nfa = lit "S"
   ∧ accept_states scenario1_nfa = {[FINAL_STATE_MARKER]}
   ∧ states scenario1_nfa = scenario1_V ∪ {[FINAL_STATE_MARKER]}
   ∧ FINAL_STATE_MARKER ∉ scenario1_V)
  ∧ build_nfa_from_grammar scenario1_grammar {[lit "S"; FINAL_STATE_MARKER]}
      scenario1_Σ (lit "S") = Raise (ValueError MarkerClash).
Proof.
  split.
  - apply (proj1 (build_start_accept_states scenario1_grammar scenario1_V
                    scenario1_Σ (lit "S"))).
    vm_compute. reflexivity.
  - apply (proj2 (build_start_accept_states scenario1_grammar
                    {[lit "S"; FINAL_STATE_MARKER]} scenario1_Σ (lit "S"))).
    vm_compute. reflexivity.
Defined.

(** C7.  With an empty set of non-terminals, a start symbol that is not a
    non-terminal, or terminals and non-terminals that overlap,
    [parse_grammar] raises the [ValueError] of the first failing check; the
    exception is the same for all rule lines, the empty list among them, so
    no line has been looked at.  With a as the only terminal and the only
    non-terminal it raises such an error for all lines and start symbols. *)
Theorem parse_grammar_preconditions lower lines V Σ S :
  (V = ∅ ∨ S ∉ V ∨ ¬ Σ ## V →
   ∃ m, parse_grammar lower lines V Σ S = Raise (ValueError m)
        ∧ (m = EmptyNonTerminals ∨ m = StartNotDeclared S
           ∨ m = NotDisjoint (Σ ∩ V))
        ∧ (∀ lower' lines',
             parse_grammar lower' lines' V Σ S = Raise (ValueError m)))
  ∧ (∃ m, parse_grammar lower lines {[lit "a"]} {[lit "a"]} S
          = Raise (ValueError m)
          ∧ (m = StartNotDeclared S ∨ m = NotDisjoint {[lit "a"]})
          ∧ (∀ lower' lines',
               parse_grammar lower' lines' {[lit "a"]} {[lit "a"]} S
               = Raise (ValueError m))).
Proof.
  assert (∀ V Σ, V = ∅ ∨ S ∉ V ∨ ¬ Σ ## V →
    ∃ m, (m = EmptyNonTerminals ∨ m = StartNotDeclared S
          ∨ m = NotDisjoint (Σ ∩ V))
         ∧ (∀ lower' lines',
              parse_grammar lower' lines' V Σ S = Raise (ValueError m))) as Hpre.
  { clear. intros V Σ Hbad. unfold parse_grammar.
    case_bool_decide as H1; [eexists; split; [by left|done]|].
    case_bool_decide as H2; [eexists; split; [by right; left|done]|].
    case_bool_decide as H3; [eexists; split; [by right; right|done]|].
    exfalso. destruct Hbad as [?|[?|?]]; tauto. }
  split.
  - intros Hbad. destruct (Hpre V Σ Hbad) as (m & Hm & Hall).
    exists m. split_and!; [apply Hall|done|done].
  - destruct (Hpre {[lit "a"]} {[lit "a"]}) as (m & Hm & Hall).
    { right; right. set_solver. }
    exists m. split_and!; [apply Hall| |done].
    destruct Hm as [-> | [-> | ->]]; [|by left|right; f_equal; set_solver].
    specialize (Hall lower lines). unfold parse_grammar in Hall.
    rewrite bool_decide_eq_false_2 in Hall by set_solver.
    exfalso. revert Hall. case_bool_decide; [done|].
    by rewrite bool_decide_eq_true_2 by set_solver.
Qed.

Lemma parse_grammar_preconditions_witness :
  ∃ m, parse_grammar ascii_lower scenario1_lines {[lit "a"]} {[lit "a"]} (lit "a")
       = Raise (ValueError m)
       ∧ (m = EmptyNonTerminals ∨ m = StartNotDeclared (lit "a")
          ∨ m = NotDisjoint ({[lit "a"]} ∩ {[lit "a"]}))
       ∧ (∀ lower' lines',
            parse_grammar lower' lines' {[lit "a"]} {[lit "a"]} (lit "a")
            = Raise (ValueError m)).
Proof.
  apply (proj1 (parse_grammar_preconditions ascii_lower scenario1_lines
                  {[lit "a"]} {[lit "a"]} (lit "a"))).
  right; right. apply (bool_decide_unpack _). vm_compute. exact I.
Defined.

(** * Further properties *)

(** ** The engine decides the language of the automaton *)

Lemma accepts_from_rtc nfa s t w :
  rtc (eps_edge (transitions nfa)) s t → accepts_from nfa t w → accepts_from nfa s w.
Proof.
  induction 1 as [|x y z Hedge _ IH]; [done|]. intros Hz.
  eapply accepts_from_epsilon; eauto.
Qed.

Lemma accepts_from_nil nfa s :
  accepts_from nfa s []
  ↔ ∃ t, rtc (eps_edge (transitions nfa)) s t ∧ t ∈ accept_states nfa.
Proof.
  split.
  - intros H. remember [] as w eqn:Hw. induction H as [s Hs|s t w Hedge _ IH|]; [|..|done].
    + by exists s.
    + destruct (IH Hw) as (u & Hu & Hacc). exists u. split; [|done].
      by eapply rtc_l.
  - intros (t & Hrtc & Hacc). eapply accepts_from_rtc; [done|]. by constructor.
Qed.

Lemma accepts_from_cons nfa s c w :
  accepts_from nfa s (c :: w)
  ↔ ∃ t u, rtc (eps_edge (transitions nfa)) s t
           ∧ u ∈ transitions_get (transitions nfa) (t, Some [c])
           ∧ accepts_from nfa u w.
Proof.
  split.
  - intros H. remember (c :: w) as cw eqn:Hw.
    induction H as [|s t w' Hedge _ IH|s c' t w' Ht Hrest _]; [done|..].
    + destruct (IH Hw) as (t' & u & Hrtc & Hu & Hrest). exists t', u.
      split_and!; [by eapply rtc_l|done..].
    + injection Hw as -> ->. by exists s, t.
  - intros (t & u & Hrtc & Hu & Hrest). eapply accepts_from_rtc; [done|].
    by eapply accepts_from_symbol.
Qed.

(** The subset simulation answers whether some state of the set it starts
    from accepts the input. *)
Lemma spec_run_language closure_of nfa X input :
  is_epsilon_closure (transitions nfa) closure_of →
  spec_run closure_of nfa (spec_closure closure_of X) input = true
  ↔ ∃ s, s ∈ X ∧ accepts_from nfa s input.
Proof.
  intros Hcl. revert X. induction input as [|c rest IH]; intros X; cbn [spec_run].
  - rewrite bool_decide_eq_true. setoid_rewrite accepts_from_nil. split.
    + intros Hne. apply set_choose_L in Hne as (t & Ht).
      apply elem_of_intersection in Ht as [(s & Hs & Hst)%elem_of_spec_closure Hacc].
      exists s. split; [done|]. exists t. split; [by apply Hcl|done].
    + intros (s & Hs & t & Hrtc & Hacc) Hempty.
      assert (t ∈ (∅ : gset state)) as Habs; [|by apply not_elem_of_empty in Habs].
      rewrite <- Hempty. apply elem_of_intersection. split; [|done].
      apply elem_of_spec_closure. exists s. split; [done|]. by apply Hcl.
  - setoid_rewrite accepts_from_cons.
    set (X' := spec_next nfa (spec_closure closure_of X) [c]).
    case_bool_decide as Hempty.
    + split; [done|]. intros (s & Hs & t & u & Hrtc & Hu & Hrest).
      assert (u ∈ (∅ : gset state)) as Habs; [|by apply not_elem_of_empty in Habs].
      rewrite <- Hempty. apply elem_of_spec_closure. exists u. split; [|by apply Hcl].
      apply elem_of_spec_next. exists t. split; [|done].
      apply elem_of_spec_closure. exists s. split; [done|]. by apply Hcl.
    + rewrite IH. split.
      * intros (u & (t & (s & Hs & Hst)%elem_of_spec_closure & Hu)%elem_of_spec_next
                  & Hrest).
        exists s. split; [done|]. exists t, u. split_and!; [by apply Hcl|done..].
      * intros (s & Hs & t & u & Hrtc & Hu & Hrest). exists u. split; [|done].
        apply elem_of_spec_next. exists t. split; [|done].
        apply elem_of_spec_closure. exists s. split; [done|]. by apply Hcl.
Qed.

(** A word accepted from some state uses symbols of the transition table
    only, which the constructor has checked against the alphabet. *)
Lemma accepts_from_alphabet nfa s w :
  constructed nfa → accepts_from nfa s w → Forall (λ c, [c] ∈ alphabet nfa) w.
Proof.
  intros Hc. induction 1 as [| |s c t w Ht _ IH]; [done..|].
  constructor; [|done]. unfold transitions_get in Ht.
  destruct (transitions nfa !! (s, Some [c])) as [T|] eqn:E; cbn in Ht.
  - by eapply (constructed_symbols _ Hc).
  - by apply not_elem_of_empty in Ht.
Qed.

Lemma accepts_language_constructed input w :
  constructed (this w) → destinations_known (this w) →
  (accepts input w).1 = true ↔ accepts_from (this w) (start_state (this w)) input.
Proof.
  intros Hc Hk.
  destruct (decide (Forall (λ c, [c] ∈ alphabet (this w)) input)) as [Hin|Hin].
  - rewrite (accepts_spec (bfs_closure (transitions (this w)))); try done;
      [|by intros s t; apply elem_of_bfs_closure]. cbn [fst].
    unfold spec_accepts. rewrite spec_run_language
      by (intros s t; apply elem_of_bfs_closure).
    split; [by intros (s & ->%elem_of_singleton & H)|].
    intros H. eexists. split; [by apply elem_of_singleton|done].
  - split.
    + intros Htrue. apply not_Forall_Exists in Hin; [|apply _].
      apply Exists_exists in Hin as (c & Hc0 & Hbad).
      unfold accepts in Htrue. revert Htrue. run_M.
      rewrite accepts_loop_invalid by eauto. done.
    + intros H. destruct Hin. by eapply accepts_from_alphabet.
Qed.

(** X1.  For a constructed automaton in which every destination of a symbol
    transition is a state or has no outgoing epsilon transition, [accepts]
    returns [True] exactly on the words that lead from the start state to an
    accept state; the words need not be over the alphabet. *)
Theorem accepts_decides_language st al tr s0 acc nfa input_string w :
  NFA_init st al tr s0 acc = Ok nfa →
  (∀ s a t, t ∈ transitions_get tr (s, Some a) →
            t ∈ st ∨ transitions_get tr (t, None) = ∅) →
  this w = nfa →
  (accepts input_string w).1 = true ↔ accepts_from nfa s0 input_string.
Proof.
  intros (<- & <- & <- & <- & _ & Hc)%NFA_init_Ok Hk <-.
  by apply accepts_language_constructed.
Qed.

Lemma accepts_decides_language_witness :
  (accepts (lit "ab") {| this := scenario1_nfa; stdout := [] |}).1 = true
  ↔ accepts_from scenario1_nfa (lit "S") (lit "ab").
Proof.
  refine (accepts_decides_language
            ({[FINAL_STATE_MARKER]} ∪ scenario1_V) scenario1_Σ
            (transitions scenario1_nfa) (lit "S") {[FINAL_STATE_MARKER]}
            scenario1_nfa (lit "ab") {| this := scenario1_nfa; stdout := [] |}
            _ _ _).
  - vm_compute. reflexivity.
  - apply (targets_destinations_known scenario1_nfa).
    apply (bool_decide_unpack _). vm_compute. exact I.
  - reflexivity.
Defined.

(** ** The transition table of the builder *)

Lemma transitions_get_add_transition tr key t key' t' :
  t' ∈ transitions_get (add_transition tr key t) key'
  ↔ t' ∈ transitions_get tr key' ∨ (key' = key ∧ t' = t).
Proof.
  unfold add_transition, transitions_get at 1.
  destruct (decide (key = key')) as [<-|Hne].
  - rewrite lookup_insert_eq. cbn. rewrite elem_of_union, elem_of_singleton.
    naive_solver.
  - rewrite lookup_insert_ne by done. fold (transitions_get tr key').
    naive_solver.
Qed.

Lemma build_production_get h tr p tr' :
  build_production h tr p = Ok tr' →
  (p.1 = None → p.2 = None)
  ∧ ∀ key t, t ∈ transitions_get tr' key
             ↔ t ∈ transitions_get tr key
               ∨ (key = (h, p.1) ∧ t = default FINAL_STATE_MARKER p.2).
Proof.
  destruct p as [[a|] [n|]]; cbn [build_production]; [| | done |];
    intros [= <-]; (split; [done|]); intros key t;
    by rewrite transitions_get_add_transition.
Qed.

Lemma build_productions_get h ps tr tr' :
  rfold (build_production h) tr ps = Ok tr' →
  (∀ p, p ∈ ps → p.1 = None → p.2 = None)
  ∧ ∀ key t, t ∈ transitions_get tr' key
             ↔ t ∈ transitions_get tr key
               ∨ ∃ p, p ∈ ps ∧ key = (h, p.1)
                      ∧ t = default FINAL_STATE_MARKER p.2.
Proof.
  revert tr. induction ps as [|p ps IH]; intros tr; cbn [rfold].
  - intros [= <-]. split; [by intros p Hp%elem_of_nil|]. intros key t.
    split; [auto|]. intros [?|(p & Hp%elem_of_nil & _)]; done.
  - destruct (build_production h tr p) as [tr1|e] eqn:E; cbn; [|done].
    intros Hrest. apply build_production_get in E as [Hp Hget].
    apply IH in Hrest as [Hps Hget']. split.
    + intros q [->|Hq]%elem_of_cons; auto.
    + intros key t. rewrite Hget', Hget. split.
      * intros [[?|[-> ->]]|(q & Hq & -> & ->)]; [by left|right..].
        -- exists p. split; [left|done].
        -- exists q. split; [by right|done].
      * intros [?|(q & [->|Hq]%elem_of_cons & -> & ->)];
          [by left; left|by left; right|right]. by exists q.
Qed.

Lemma build_transitions_get (g : grammar) tr tr' :
  rfold (λ tr item, rfold (build_production item.1) tr item.2) tr g = Ok tr' →
  (∀ h ps p, (h, ps) ∈ g → p ∈ ps → p.1 = None → p.2 = None)
  ∧ ∀ key t, t ∈ transitions_get tr' key
             ↔ t ∈ transitions_get tr key
               ∨ ∃ h ps p, (h, ps) ∈ g ∧ p ∈ ps ∧ key = (h, p.1)
                           ∧ t = default FINAL_STATE_MARKER p.2.
Proof.
  revert tr. induction g as [|[h ps] g IH]; intros tr; cbn [rfold].
  - intros [= <-]. split; [by intros h ps p Hp%elem_of_nil|]. intros key t.
    split; [auto|]. intros [?|(h & ps & p & Hp%elem_of_nil & _)]; done.
  - cbn [fst snd].
    destruct (rfold (build_production h) tr ps) as [tr1|e] eqn:E; cbn; [|done].
    intros Hrest. apply build_productions_get in E as [Hps Hget].
    apply IH in Hrest as [Hg Hget']. split.
    + intros h' ps' p [[= -> ->]|Hin]%elem_of_cons Hp; eauto.
    + intros key t. rewrite Hget', Hget. split.
      * intros [[?|(p & Hp & -> & ->)]|(h' & ps' & p & Hin & Hp & -> & ->)];
          [by left|right..].
        -- exists h, ps, p. split; [left|done].
        -- exists h', ps', p. split; [by right|done].
      * intros [?|(h' & ps' & p & [[= -> ->]|Hin]%elem_of_cons & Hp & -> & ->)];
          [by left; left|left; right; by exists p|right]. by exists h', ps', p.
Qed.

(** The loops of the builder end in a table, or in the [RuntimeError] of a
    production with a next non-terminal and no terminal. *)
Lemma build_transitions_outcome (g : grammar) tr :
  (∃ tr', rfold (λ tr item, rfold (build_production item.1) tr item.2) tr g
          = Ok tr')
  ∨ (∃ m, rfold (λ tr item, rfold (build_production item.1) tr item.2) tr g
          = Raise (RuntimeError m)
          ∧ has_bare_non_terminal g).
Proof.
  assert (∀ h ps tr,
    (∃ tr', rfold (build_production h) tr ps = Ok tr')
    ∨ (∃ m next, rfold (build_production h) tr ps = Raise (RuntimeError m)
                 ∧ (None, Some next) ∈ ps)) as Hinner.
  { clear. intros h ps. induction ps as [|p ps IH]; intros tr; cbn [rfold].
    - left. by eexists.
    - destruct p as [[a|] [n|]]; cbn [build_production]; cbn;
        try (destruct (IH (add_transition tr (h, Some a) n))
               as [?|(m & next & ? & ?)];
             [by left|right; exists m, next; split; [done|by right]]).
      + destruct (IH (add_transition tr (h, Some a) FINAL_STATE_MARKER))
          as [?|(m & next & ? & ?)];
          [by left|right; exists m, next; split; [done|by right]].
      + right. eexists _, n. split; [done|left].
      + destruct (IH (add_transition tr (h, None) FINAL_STATE_MARKER))
          as [?|(m & next & ? & ?)];
          [by left|right; exists m, next; split; [done|by right]]. }
  revert tr. induction g as [|[h ps] g IH]; intros tr; cbn [rfold].
  - left. by eexists.
  - cbn. destruct (Hinner h ps tr) as [[tr1 ->]|(m & next & -> & Hin)]; cbn.
    + destruct (IH tr1) as [?|(m & ? & h' & ps' & next & Hin & Hp)]; [by left|].
      right. exists m. split; [done|]. exists h', ps', next. split; [by right|done].
    + right. exists m. split; [done|]. exists h, ps, next. split; [left|done].
Qed.

Lemma build_transitions_nonempty (g : grammar) tr tr' :
  rfold (λ tr item, rfold (build_production item.1) tr item.2) tr g = Ok tr' →
  (∀ key T, tr !! key = Some T → T ≠ ∅) →
  ∀ key T, tr' !! key = Some T → T ≠ ∅.
Proof.
  intros Hrun Htr.
  eapply (rfold_preserves _ (λ tr : gmap (state * option symbol) (gset state),
            ∀ key T, tr !! key = Some T → T ≠ ∅)); [|exact Htr|exact Hrun].
  intros b [h ps] b' Hb Hinner. cbn in Hinner.
  eapply (rfold_preserves _ (λ tr : gmap (state * option symbol) (gset state),
            ∀ key T, tr !! key = Some T → T ≠ ∅)); [|exact Hb|exact Hinner].
  clear. intros b0 p b1 Hb0 Hp key T.
  assert (∀ k t, (add_transition b0 k t) !! key = Some T → T ≠ ∅) as Hadd.
  { intros k t. unfold add_transition. destruct (decide (k = key)) as [->|Hne].
    - rewrite lookup_insert_eq. intros [= <-]. set_solver.
    - rewrite lookup_insert_ne by done. apply Hb0. }
  destruct p as [[a|] [n|]]; cbn [build_production] in Hp; [| |done|];
    injection Hp as <-; apply Hadd.
Qed.

(** X2.  The transition table of a built automaton has exactly the edges of
    the productions: from a head, on the terminal or epsilon of a production
    of that head, to its next non-terminal, or to the final marker when it
    has none. *)
Theorem built_transition_table (grammar_dict : grammar) V Σ S nfa :
  build_nfa_from_grammar grammar_dict V Σ S = Ok nfa →
  ∀ head sym t,
    t ∈ transitions_get (transitions nfa) (head, sym)
    ↔ ∃ productions,
        (head, productions) ∈ grammar_dict
        ∧ ((sym, None) ∈ productions ∧ t = FINAL_STATE_MARKER
           ∨ (sym, Some t) ∈ productions).
Proof.
  intros (_ & tr & Htr & Hinit)%build_nfa_from_grammar_Ok head sym t.
  apply NFA_init_Ok in Hinit as (_ & _ & -> & _).
  apply build_transitions_get in Htr as [_ Hget]. rewrite Hget.
  unfold transitions_get at 1. rewrite lookup_empty. cbn. split.
  - intros [Habs|(h & ps & [a [n|]] & Hin & Hp & [= -> ->] & ->)];
      [by apply not_elem_of_empty in Habs|..]; exists ps; cbn; auto.
  - intros (ps & Hin & [[Hp ->]|Hp]); right.
    + by exists head, ps, (sym, None).
    + by exists head, ps, (sym, Some t).
Qed.

Lemma built_transition_table_witness :
  lit "A" ∈ transitions_get (transitions scenario1_nfa) (lit "S", Some (lit "a"))
  ↔ ∃ productions,
      (lit "S", productions) ∈ scenario1_grammar
      ∧ ((Some (lit "a"), None) ∈ productions ∧ lit "A" = FINAL_STATE_MARKER
         ∨ (Some (lit "a"), Some (lit "A")) ∈ productions).
Proof.
  refine (built_transition_table scenario1_grammar scenario1_V scenario1_Σ
            (lit "S") scenario1_nfa _ (lit "S") (Some (lit "a")) (lit "A")).
  vm_compute. reflexivity.
Defined.

(** X3.  When the builder succeeds and when it raises.  It returns an
    automaton exactly when the marker is no declared non-terminal, no
    production is a bare next non-terminal, the start symbol is a declared
    non-terminal or the marker itself, and every terminal of a production is
    a declared terminal; heads and next non-terminals are not checked.  It
    raises [RuntimeError] exactly when the marker is no declared non-terminal
    and some production is a bare next non-terminal, whatever else is wrong. *)
Theorem build_nfa_from_grammar_outcome (grammar_dict : grammar) V Σ S :
  ((∃ nfa, build_nfa_from_grammar grammar_dict V Σ S = Ok nfa)
   ↔ (FINAL_STATE_MARKER ∉ V)
     ∧ ¬ has_bare_non_terminal grammar_dict
     ∧ (S ∈ V ∨ S = FINAL_STATE_MARKER)
     ∧ (∀ head productions terminal next,
          (head, productions) ∈ grammar_dict →
          (Some terminal, next) ∈ productions → terminal ∈ Σ))
  ∧ ((∃ m, build_nfa_from_grammar grammar_dict V Σ S = Raise (RuntimeError m))
     ↔ (FINAL_STATE_MARKER ∉ V) ∧ has_bare_non_terminal grammar_dict).
Proof.
  unfold build_nfa_from_grammar. case_bool_decide as HF.
  { split; split; try (intros [? ?]; done); intros (? & _); done. }
  destruct (build_transitions_outcome grammar_dict ∅)
    as [[tr Htr]|(m & Htr & Hbare)]; rewrite Htr; cbn [mbind result_bind].
  - pose proof (build_transitions_get _ _ _ Htr) as [Hlegal Hget].
    assert (¬ has_bare_non_terminal grammar_dict) as Hnb.
    { intros (h & ps & n & Hin & Hp). by specialize (Hlegal _ _ _ Hin Hp eq_refl). }
    split; split.
    + intros [nfa Hinit]. apply NFA_init_Ok in Hinit
        as (Hst & Hal & Htrans & Hs0 & _ & Hc).
      split_and!; [done..| |].
      * pose proof (constructed_start _ Hc) as Hs.
        rewrite Hst, Hs0 in Hs. set_solver.
      * intros h ps a o Hin Hp.
        assert (default FINAL_STATE_MARKER o ∈ transitions_get tr (h, Some a)) as Ht.
        { apply Hget. right. by exists h, ps, (Some a, o). }
        unfold transitions_get in Ht.
        destruct (tr !! (h, Some a)) as [T|] eqn:E;
          [|by apply not_elem_of_empty in Ht].
        rewrite <- Hal. apply (constructed_symbols _ Hc h a T). by rewrite Htrans.
    + intros (_ & _ & HS & Hterm). apply NFA_init_total; [set_solver|set_solver|].
      intros s a T HT.
      assert (T ≠ ∅) as [t Ht]%set_choose_L.
      { eapply (build_transitions_nonempty _ _ _ Htr); [|done].
        intros key T'. by rewrite lookup_empty. }
      assert (t ∈ transitions_get tr (s, Some a)) as Ht'
        by (unfold transitions_get; by rewrite HT).
      apply Hget in Ht' as [Habs|(h & ps & [oa o] & Hin & Hp & Heq & _)].
      * unfold transitions_get in Habs. rewrite lookup_empty in Habs.
        by apply not_elem_of_empty in Habs.
      * cbn in Heq. injection Heq as -> <-. by eapply Hterm.
    + intros [m Hinit]. by apply NFA_init_not_RuntimeError in Hinit.
    + intros [_ ?]. done.
  - split; split.
    + intros [? ?]; done.
    + intros (_ & ? & _). done.
    + done.
    + intros _. by exists m.
Qed.

(** ** The language of the built automaton *)

Lemma built_accepts_from (grammar_dict : grammar) V Σ S nfa A w :
  build_nfa_from_grammar grammar_dict V Σ S = Ok nfa →
  marker_free grammar_dict →
  accepts_from nfa A w
  ↔ (A = FINAL_STATE_MARKER ∧ w = []) ∨ derives grammar_dict A w.
Proof.
  intros Hb Hmf. pose proof (built_transition_table _ _ _ _ _ Hb) as Htab.
  apply build_nfa_from_grammar_Ok in Hb as (_ & tr & Htr & Hinit).
  apply build_transitions_get in Htr as [Hlegal _].
  apply NFA_init_Ok in Hinit as (_ & _ & _ & _ & Hacc & _).
  assert (∀ w, ¬ derives grammar_dict FINAL_STATE_MARKER w) as Hnof.
  { intros w' Hd. inversion Hd as [? ps Hin|? ps ? Hin|? ps ? ? ? Hin]; subst;
      by destruct (Hmf _ _ Hin). }
  split.
  - induction 1 as [s Hs|s t w Hedge _ IH|s c t w Ht _ IH].
    + left. rewrite Hacc in Hs. by apply elem_of_singleton in Hs.
    + right. apply Htab in Hedge as (ps & Hin & [[Hp ->]|Hp]).
      * destruct IH as [[_ ->]|Hd]; [by eapply derives_epsilon|by apply Hnof in Hd].
      * by specialize (Hlegal _ _ _ Hin Hp eq_refl).
    + right. apply Htab in Ht as (ps & Hin & [[Hp ->]|Hp]).
      * destruct IH as [[_ ->]|Hd]; [by eapply derives_terminal|by apply Hnof in Hd].
      * destruct (Hmf _ _ Hin) as [_ Hn].
        destruct IH as [[-> ->]|Hd]; [by apply Hn in Hp|].
        by eapply derives_next.
  - intros [[-> ->]|Hd].
    + constructor. rewrite Hacc. by apply elem_of_singleton.
    + induction Hd as [A ps Hin Hp|A ps c Hin Hp|A ps c B w Hin Hp _ IH].
      * eapply accepts_from_epsilon.
        -- apply Htab. exists ps. split; [done|]. by left.
        -- constructor. rewrite Hacc. by apply elem_of_singleton.
      * eapply accepts_from_symbol.
        -- apply Htab. exists ps. split; [done|]. by left.
        -- constructor. rewrite Hacc. by apply elem_of_singleton.
      * eapply accepts_from_symbol; [|exact IH].
        apply Htab. exists ps. split; [done|]. by right.
Qed.

(** ** The grammar [dict] of the parser *)

Lemma dict_append_keys (g : grammar) head p :
  (dict_append g head p).*1 = if decide (head ∈ g.*1) then g.*1 else g.*1 ++ [head].
Proof.
  induction g as [|[h ps] g IH]; cbn [dict_append].
  - by rewrite decide_False by apply not_elem_of_nil.
  - destruct (decide (h = head)) as [->|Hh]; cbn.
    + by rewrite decide_True by left.
    + rewrite IH. destruct (decide (head ∈ g.*1)) as [Hin|Hin].
      * by rewrite decide_True by by right.
      * rewrite decide_False; [done|]. intros [?|?]%elem_of_cons; congruence.
Qed.

Lemma dict_append_well_keyed V (g : grammar) head p :
  well_keyed V g → head ∈ V → head ≠ [] → well_keyed V (dict_append g head p).
Proof.
  intros [Hnd Hall] HV Hne. split.
  - rewrite dict_append_keys. case_decide as Hin; [done|].
    apply NoDup_app. split_and!; [done| |apply NoDup_singleton].
    intros x Hx ->%list_elem_of_singleton. done.
  - clear Hnd. induction g as [|[h ps] g IH]; cbn [dict_append].
    + repeat constructor; done.
    + apply Forall_cons in Hall as [Hh Hg]. case_decide.
      * constructor; [|done]. cbn in *. split_and!; try apply Hh.
        by destruct ps.
      * constructor; [done|]. by apply IH.
Qed.

Section ParsedGrammar.

Variable lower : str → str.
Variables V Σ : gset str.

Lemma parse_production_invariant (Q : grammar → Prop) (q : production → Prop)
    line_num head g prod g' :
  (∀ g p, Q g → q p → Q (dict_append g head p)) →
  q (None, None) →
  (∀ c, [c] ∈ Σ → [c] ≠ EPSILON_CHAR → q (Some [c], None)) →
  (∀ c0 c1, [c0] ∈ Σ → [c1] ∈ V → q (Some [c0], Some [c1])) →
  Q g →
  parse_production lower V Σ line_num head g prod = Ok g' → Q g'.
Proof.
  intros Happ Heps Hterm Hnext Hg. unfold parse_production.
  destruct (bool_decide (lower prod = lit "epsilon")); cbn [orb].
  { intros [= <-]. by apply Happ. }
  case_bool_decide as Hchar; [intros [= <-]; by apply Happ|].
  destruct prod as [|c0 [|c1 [|c2 rest]]]; [done| | |done].
  - case_bool_decide as Ht; [done|]. intros [= <-]. apply Happ; [done|].
    apply Hterm; [stable|done].
  - case_bool_decide as Ht; [done|]. case_bool_decide as Hn; [done|].
    intros [= <-]. apply Happ; [done|]. apply Hnext; stable.
Qed.

Lemma parse_line_invariant (Q : grammar → Prop) st line_num line st' :
  (∀ g head p, Q g → head ∈ V → head ≠ [] → single_characters p →
               legal_production V Σ p → Q (dict_append g head p)) →
  Q st.1 →
  parse_line lower V Σ st line_num line = Ok st' → Q st'.1.
Proof.
  destruct st as [g defined]. intros Happ Hg. unfold parse_line.
  destruct (_ || _); [by intros [= <-]|].
  destruct (split_once _ _) as [[head body]|]; [|done].
  case_bool_decide as Hne; [done|]. case_bool_decide as HV; [done|].
  destruct (_ || _); [done|].
  destruct (rfold _ _ _) as [g1|e] eqn:E; cbn; [|done]. intros [= <-]. cbn.
  assert (strip head ∈ V) as HV' by stable.
  eapply (rfold_preserves _ Q); [|exact Hg|exact E].
  intros b x b' Hb.
  apply (parse_production_invariant Q
           (λ p, single_characters p ∧ legal_production V Σ p)); try done.
  - intros g0 p H0 [? ?]. by apply Happ.
  - split; [done|by left].
  - intros c Hc Hnot. split; [done|]. right; left. by exists [c].
  - intros c0 c1 H0 H1. split; [done|]. right; right. by exists [c0], [c1].
Qed.

Lemma parse_lines_invariant (Q : grammar → Prop) line_num lines st st' :
  (∀ g head p, Q g → head ∈ V → head ≠ [] → single_characters p →
               legal_production V Σ p → Q (dict_append g head p)) →
  Q st.1 →
  parse_lines lower V Σ line_num lines st = Ok st' → Q st'.1.
Proof.
  intros Happ. revert line_num st.
  induction lines as [|line rest IH]; intros n st Hst; cbn.
  - by intros [= <-].
  - destruct (parse_line _ _ _ _ _ _) as [st1|e] eqn:E; cbn; [|done].
    apply IH. by eapply parse_line_invariant.
Qed.

End ParsedGrammar.

(** Whatever is kept by appending productions of the two or three legal
    shapes, with single characters, to declared heads holds of a parsed
    grammar. *)
Lemma parse_grammar_invariant (Q : grammar → Prop) lower lines V Σ S g :
  (∀ g head p, Q g → head ∈ V → head ≠ [] → single_characters p →
               legal_production V Σ p → Q (dict_append g head p)) →
  Q [] →
  parse_grammar lower lines V Σ S = Ok g → Q g.
Proof.
  intros Happ Hnil. unfold parse_grammar. repeat (case_bool_decide; [done|]).
  destruct (parse_lines _ _ _ _ _ _) as [st|e] eqn:E; cbn; [|done].
  intros [= <-]. by eapply (parse_lines_invariant lower V Σ Q); [| |exact E].
Qed.

(** X4.  The grammar returned by the parser is a proper [dict]: no head
    occurs twice; every head is a non-empty declared non-terminal and has at
    least one production. *)
Theorem parsed_grammar_well_keyed lower lines V Σ S grammar_dict :
  parse_grammar lower lines V Σ S = Ok grammar_dict →
  NoDup grammar_dict.*1
  ∧ (∀ head productions,
       (head, productions) ∈ grammar_dict →
       head ∈ V ∧ head ≠ [] ∧ productions ≠ []).
Proof.
  intros Hp.
  assert (well_keyed V grammar_dict) as [Hnd Hall].
  { eapply (parse_grammar_invariant (well_keyed V)); [| |exact Hp].
    - intros g head p Hg HV Hne _ _. by apply dict_append_well_keyed.
    - split; constructor. }
  split; [done|]. intros head ps Hin. rewrite Forall_forall in Hall.
  apply (Hall _ Hin).
Qed.

Lemma parsed_grammar_well_keyed_witness :
  NoDup scenario1_grammar.*1
  ∧ (lit "S" ∈ scenario1_V ∧ lit "S" ≠ []
     ∧ [(Some (lit "a"), Some (lit "A")); (Some (lit "b"), None)] ≠ []).
Proof.
  destruct (parsed_grammar_well_keyed ascii_lower scenario1_lines scenario1_V
              scenario1_Σ (lit "S") scenario1_grammar) as [Hnd Hall].
  - vm_compute. reflexivity.
  - split; [exact Hnd|]. apply Hall. left.
Defined.

(** X5.  The symbols of parsed productions are single characters: a declared
    terminal or non-terminal of several characters can be the head of a rule
    but never occurs in a production; and a terminal standing alone is never
    the character ε, which the parser reads as the empty word even when it
    is a declared terminal. *)
Theorem parsed_symbols_single_characters lower lines V Σ S grammar_dict :
  parse_grammar lower lines V Σ S = Ok grammar_dict →
  ∀ head productions terminal next,
    (head, productions) ∈ grammar_dict →
    (Some terminal, next) ∈ productions →
    length terminal = 1
    ∧ (next = None → terminal ≠ EPSILON_CHAR)
    ∧ (∀ n, next = Some n → length n = 1).
Proof.
  intros Hp.
  assert (grammar_Forall single_characters grammar_dict) as Hall.
  { eapply (parse_grammar_invariant (grammar_Forall single_characters));
      [| |exact Hp].
    - intros g head p Hg _ _ Hs _. by apply dict_append_Forall.
    - constructor. }
  intros head ps t next Hin Hprod.
  pose proof (grammar_Forall_lookup _ _ _ _ _ Hall Hin Hprod) as Hs.
  destruct next as [n|]; cbn in Hs; destruct Hs as [H1 H2].
  - split_and!; [done|done|]. by intros ? [= <-].
  - split_and!; [done|done|done].
Qed.

Lemma parsed_symbols_single_characters_witness :
  length (lit "a") = 1
  ∧ (Some (lit "A") = None → lit "a" ≠ EPSILON_CHAR)
  ∧ (∀ n, Some (lit "A") = Some n → length n = 1).
Proof.
  refine (parsed_symbols_single_characters ascii_lower scenario1_lines scenario1_V
            scenario1_Σ (lit "S") scenario1_grammar _ (lit "S")
            [(Some (lit "a"), Some (lit "A")); (Some (lit "b"), None)]
            (lit "a") (Some (lit "A")) _ _).
  - vm_compute. reflexivity.
  - left.
  - left.
Defined.

(** ** From the rules to the verdict *)

Lemma parsed_marker_free lower lines V Σ S g :
  parse_grammar lower lines V Σ S = Ok g → FINAL_STATE_MARKER ∉ V → marker_free g.
Proof.
  intros Hp HF h ps Hin.
  assert (well_keyed V g) as [_ Hall].
  { eapply (parse_grammar_invariant (well_keyed V)); [| |exact Hp].
    - intros g0 head p Hg HV Hne _ _. by apply dict_append_well_keyed.
    - split; constructor. }
  rewrite Forall_forall in Hall. destruct (Hall _ Hin) as (HV & _). cbn in HV.
  split; [by intros ->|]. intros a Ha.
  pose proof (grammar_Forall_lookup _ _ _ _ _ (parse_grammar_legal _ _ _ _ _ _ Hp)
                Hin Ha) as [?|[(? & ? & _)|(t & n & [= -> <-] & _ & Hn)]]; done.
Qed.

(** X6.  The whole pipeline decides the language of the grammar: on the
    automaton built from a parsed grammar, [accepts] returns [True] exactly
    on the words that the start symbol derives by the parsed productions. *)
Theorem pipeline_decides_grammar lower lines V Σ S grammar_dict nfa
    input_string w :
  parse_grammar lower lines V Σ S = Ok grammar_dict →
  build_nfa_from_grammar grammar_dict V Σ S = Ok nfa →
  this w = nfa →
  (accepts input_string w).1 = true ↔ derives grammar_dict S input_string.
Proof.
  intros Hp Hb <-.
  destruct (built_constructed_within _ _ _ _ _ _ _ Hp Hb) as (Hc & _ & _ & _ & Htg).
  pose proof (build_nfa_from_grammar_Ok _ _ _ _ _ Hb) as (HF & tr & _ & Hinit).
  apply NFA_init_Ok in Hinit as (_ & _ & _ & Hs0 & _).
  rewrite accepts_language_constructed
    by (try done; by apply targets_destinations_known).
  rewrite Hs0, (built_accepts_from _ _ _ _ _ _ _ Hb)
    by by eapply parsed_marker_free.
  apply parse_grammar_declarations in Hp as (_ & HS & _).
  split; [|by right]. intros [[-> _]|?]; done.
Qed.

Lemma pipeline_decides_grammar_witness :
  (accepts (lit "ab") {| this := scenario1_nfa; stdout := [] |}).1 = true
  ↔ derives scenario1_grammar (lit "S") (lit "ab").
Proof.
  refine (pipeline_decides_grammar ascii_lower scenario1_lines scenario1_V
            scenario1_Σ (lit "S") scenario1_grammar scenario1_nfa (lit "ab")
            {| this := scenario1_nfa; stdout := [] |} _ _ _).
  - vm_compute. reflexivity.
  - vm_compute. reflexivity.
  - reflexivity.
Defined.

(** ** Rule lines, one after the other *)

Section ParseLines.

Variable lower : str → str.
Variables V Σ : gset str.

Lemma parse_lines_app line_num l1 l2 st :
  parse_lines lower V Σ line_num (l1 ++ l2) st
  = (st' ← parse_lines lower V Σ line_num l1 st;
     parse_lines lower V Σ (line_num + length l1) l2 st').
Proof.
  revert line_num st. induction l1 as [|line l1 IH]; intros n st; cbn.
  - by rewrite Nat.add_0_r.
  - destruct (parse_line lower V Σ st n line) as [st1|e]; cbn; [|done].
    rewrite IH. by replace (S n + length l1) with (n + S (length l1)) by lia.
Qed.

(** The line number is used for the message only. *)
Lemma parse_production_renumbered n n' head g prod :
  parse_production lower V Σ n' head g prod
  = renumbered n' (parse_production lower V Σ n head g prod).
Proof.
  unfold parse_production. destruct (_ || _); [done|].
  destruct prod as [|c0 [|c1 [|c2 rest]]]; cbn; try done;
    repeat (case_bool_decide; [done|]); done.
Qed.

Lemma rfold_parse_production_renumbered n n' head g prods :
  rfold (parse_production lower V Σ n' head) g prods
  = renumbered n' (rfold (parse_production lower V Σ n head) g prods).
Proof.
  revert g. induction prods as [|p prods IH]; intros g; cbn [rfold]; [done|].
  rewrite (parse_production_renumbered n n').
  destruct (parse_production lower V Σ n head g p) as [g1|[m|m]]; cbn; [|done..].
  apply IH.
Qed.

Lemma parse_line_renumbered n n' st line :
  parse_line lower V Σ st n' line = renumbered n' (parse_line lower V Σ st n line).
Proof.
  destruct st as [g defined]. unfold parse_line.
  destruct (_ || _); [done|].
  destruct (split_once _ _) as [[head body]|]; [|done].
  repeat (case_bool_decide; [done|]). destruct (_ || _); [done|].
  rewrite (rfold_parse_production_renumbered n n').
  by destruct (rfold (parse_production lower V Σ n (strip head)) g _) as [g1|[m|m]].
Qed.

(** Whether a production is taken, and the exception if not, is no matter
    of the grammar read so far. *)
Lemma parse_production_any_grammar n head g g' prod :
  match parse_production lower V Σ n head g prod with
  | Ok _ => ∃ g1, parse_production lower V Σ n head g' prod = Ok g1
  | Raise e => parse_production lower V Σ n head g' prod = Raise e
               ∧ ∃ m, e = ValueError m ∧ message_line m = Some n
  end.
Proof.
  unfold parse_production. destruct (_ || _); [by eexists|].
  destruct prod as [|c0 [|c1 [|c2 rest]]]; cbn;
    repeat (case_bool_decide; [by eauto|]); by eauto.
Qed.

Lemma rfold_parse_production_any_grammar n head g g' prods :
  match rfold (parse_production lower V Σ n head) g prods with
  | Ok _ => ∃ g1, rfold (parse_production lower V Σ n head) g' prods = Ok g1
  | Raise e => rfold (parse_production lower V Σ n head) g' prods = Raise e
               ∧ ∃ m, e = ValueError m ∧ message_line m = Some n
  end.
Proof.
  revert g g'. induction prods as [|p prods IH]; intros g g'; cbn [rfold].
  - by eexists.
  - pose proof (parse_production_any_grammar n head g g' p) as Hp.
    destruct (parse_production lower V Σ n head g p) as [g1|e]; cbn.
    + destruct Hp as [g1' ->]. cbn. apply IH.
    + destruct Hp as [-> ?]. done.
Qed.

(** A line raises [ValueError] only, with its own number, and whether it
    does is no matter of the grammar read so far. *)
Lemma parse_line_Raise st n line e :
  parse_line lower V Σ st n line = Raise e →
  ∃ m, e = ValueError m ∧ message_line m = Some n
       ∧ ∀ st', parse_line lower V Σ st' n line = Raise e.
Proof.
  destruct st as [g defined]. unfold parse_line.
  destruct (_ || _); [done|].
  destruct (split_once _ _) as [[head body]|];
    [|intros [= <-]; eexists; split_and!; [done..|by intros [??]]].
  case_bool_decide; [intros [= <-]; eexists; split_and!; [done..|by intros [??]]|].
  case_bool_decide; [intros [= <-]; eexists; split_and!; [done..|by intros [??]]|].
  destruct (_ || _); [intros [= <-]; eexists; split_and!; [done..|by intros [??]]|].
  destruct (rfold _ _ _) as [g1|e'] eqn:E; cbn; [done|]. intros [= <-].
  assert (∀ g', rfold (parse_production lower V Σ n (strip head)) g'
                  (strip <$> split_char BAR body) = Raise e'
                ∧ ∃ m, e' = ValueError m ∧ message_line m = Some n) as Hall.
  { intros g'.
    pose proof (rfold_parse_production_any_grammar n (strip head) g g'
                  (strip <$> split_char BAR body)) as H'.
    by rewrite E in H'. }
  destruct (Hall g) as [_ (m & -> & Hm)]. exists m. split_and!; [done..|].
  intros [g' defined']. by rewrite (proj1 (Hall g')).
Qed.

(** A failing run of lines fails at some line, after the lines before it
    have been read, and with the number of that line. *)
Lemma parse_lines_Raise n lines st e :
  parse_lines lower V Σ n lines st = Raise e →
  ∃ i line st_i m,
    lines !! i = Some line
    ∧ parse_lines lower V Σ n (take i lines) st = Ok st_i
    ∧ parse_line lower V Σ st_i (n + i) line = Raise e
    ∧ e = ValueError m ∧ message_line m = Some (n + i).
Proof.
  revert n st. induction lines as [|line rest IH]; intros n st; cbn; [done|].
  destruct (parse_line lower V Σ st n line) as [st1|e'] eqn:E; cbn.
  - intros (i & l & st_i & m & Hl & Hpre & Hline & -> & Hm)%IH.
    exists (S i), l, st_i, m. cbn. rewrite E. cbn.
    replace (n + S i) with (S n + i) by lia. by split_and!.
  - intros [= <-]. destruct (parse_line_Raise _ _ _ _ E) as (m & -> & Hm & _).
    exists 0, line, st, m. cbn. rewrite Nat.add_0_r. by split_and!.
Qed.

(** Lines that are blank or comments leave no trace but in the numbering. *)
Lemma parse_lines_skip n n' lines st :
  ∃ k, parse_lines lower V Σ n' (filter (λ l, ¬ is_skipped l) lines) st
       = renumbered k (parse_lines lower V Σ n lines st).
Proof.
  revert n n' st. induction lines as [|line rest IH]; intros n n' st.
  - exists 0. done.
  - rewrite filter_cons. destruct (decide (¬ is_skipped line)) as [Hkeep|Hskip].
    + cbn [parse_lines]. rewrite (parse_line_renumbered n n').
      destruct (parse_line lower V Σ st n line) as [st1|[m|m]] eqn:E; cbn.
      * apply IH.
      * by exists n'.
      * by exists n'.
    + apply dec_stable in Hskip. cbn [parse_lines].
      assert (parse_line lower V Σ st n line = Ok st) as ->.
      { destruct st as [g defined]. unfold parse_line.
        destruct Hskip as [->| ->]; [done|by rewrite orb_true_r]. }
      cbn. apply IH.
Qed.

End ParseLines.

(** X7.  A failing parse is the failure of one line: the lines before it
    parse, the exception is a [ValueError] that carries the 1-based number of
    that line, and the lines after it are not looked at, since the exception
    is the same whatever follows. *)
Theorem parse_grammar_first_error lower lines V Σ start_symbol e :
  parse_grammar lower lines V Σ start_symbol = Raise e →
  V ≠ ∅ → start_symbol ∈ V → Σ ## V →
  ∃ i m,
    i < length lines
    ∧ e = ValueError m
    ∧ message_line m = Some (S i)
    ∧ (∃ g, parse_grammar lower (take i lines) V Σ start_symbol = Ok g)
    ∧ (∀ lines', parse_grammar lower (take (S i) lines ++ lines') V Σ start_symbol
                 = Raise e).
Proof.
  unfold parse_grammar. intros He HV HS HΣ. revert He.
  rewrite !bool_decide_eq_false_2 by auto.
  destruct (parse_lines lower V Σ 1 lines ([], ∅)) as [st|e'] eqn:E; cbn; [done|].
  intros [= <-]. apply parse_lines_Raise in E
    as (i & line & st_i & m & Hl & Hpre & Hline & -> & Hm).
  exists i, m. split_and!; [by eapply lookup_lt_Some|done|done| |].
  - exists st_i.1. by rewrite Hpre.
  - intros lines'. rewrite (take_S_r _ _ _ Hl), <- app_assoc, parse_lines_app, Hpre.
    cbn. rewrite length_take_le by (apply Nat.lt_le_incl; by eapply lookup_lt_Some).
    change (S i) with (1 + i). by rewrite Hline.
Qed.

Lemma parse_grammar_first_error_witness :
  ∃ i m,
    i < length [lit "S -> b"; lit "A b"]
    ∧ ValueError (MissingArrow 2 (lit "A b")) = ValueError m
    ∧ message_line m = Some (S i)
    ∧ (∃ g, parse_grammar ascii_lower (take i [lit "S -> b"; lit "A b"])
              scenario1_V scenario1_Σ (lit "S") = Ok g)
    ∧ (∀ lines', parse_grammar ascii_lower
                   (take (S i) [lit "S -> b"; lit "A b"] ++ lines')
                   scenario1_V scenario1_Σ (lit "S")
                 = Raise (ValueError (MissingArrow 2 (lit "A b")))).
Proof.
  apply (parse_grammar_first_error ascii_lower [lit "S -> b"; lit "A b"]
           scenario1_V scenario1_Σ (lit "S")).
  - vm_compute. reflexivity.
  - apply (bool_decide_unpack _). vm_compute. exact I.
  - apply (bool_decide_unpack _). vm_compute. exact I.
  - apply (bool_decide_unpack _). vm_compute. exact I.
Defined.

(** X8.  Blank lines and comment lines change nothing but the numbering:
    without them the parser returns the same grammar, or raises the same
    exception up to its line number. *)
Theorem parse_grammar_skips_comments lower lines V Σ S :
  ∃ k, parse_grammar lower (filter (λ l, ¬ is_skipped l) lines) V Σ S
       = renumbered k (parse_grammar lower lines V Σ S).
Proof.
  unfold parse_grammar. repeat (case_bool_decide; [by exists 0|]).
  destruct (parse_lines_skip lower V Σ 1 1 lines ([], ∅)) as [k ->].
  exists k. by destruct (parse_lines lower V Σ 1 lines ([], ∅)) as [st|[m|m]].
Qed.


(** ** Reading the declarations *)

Lemma lstrip_spec s :
  ∃ ws, s = ws ++ lstrip s ∧ Forall (λ c, isspace c = true) ws
        ∧ match lstrip s with [] => True | c :: _ => isspace c = false end.
Proof.
  induction s as [|c s (ws & Hs & Hws & Hhead)]; cbn.
  - by exists [].
  - destruct (isspace c) eqn:Hc.
    + exists (c :: ws). split_and!; [cbn; by f_equal|by constructor|done].
    + exists []. by rewrite Hc.
Qed.

(** A line is its stripped text between two runs of whitespace; the stripped
    text, unless empty, begins and ends with characters that are none. *)
Lemma strip_spec s :
  ∃ before after,
    s = before ++ strip s ++ after
    ∧ Forall (λ c, isspace c = true) before
    ∧ Forall (λ c, isspace c = true) after
    ∧ (strip s = []
       ∨ (∃ c r, strip s = c :: r ∧ isspace c = false)
         ∧ ends_without_space (strip s)).
Proof.
  unfold strip. destruct (lstrip_spec s) as (ws1 & Hs & Hws1 & Hhead).
  destruct (lstrip_spec (rev (lstrip s))) as (ws2 & Hr & Hws2 & Hhead2).
  set (b := lstrip (rev (lstrip s))) in *.
  assert (lstrip s = rev b ++ rev ws2) as Ha.
  { rewrite <- rev_app_distr, <- Hr. by rewrite rev_involutive. }
  exists ws1, (rev ws2). split_and!.
  - by rewrite <- Ha.
  - done.
  - by apply Forall_rev.
  - destruct b as [|c b']; [by left|right]. split.
    + rewrite Ha in Hhead. destruct (rev (c :: b')) as [|c' r] eqn:E.
      * apply (f_equal length) in E. rewrite length_rev in E. done.
      * by exists c', r.
    + exists c. split; [|done]. cbn [rev]. by rewrite last_snoc.
Qed.

Lemma strip_nil_iff s : strip s = [] ↔ Forall (λ c, isspace c = true) s.
Proof.
  destruct (strip_spec s) as (before & after & Hs & Hb & Ha & Hhead). split.
  - intros Hnil. rewrite Hs, Hnil. cbn. by apply Forall_app.
  - intros Hall. destruct Hhead as [?|[(c & r & Hc & Hsp) _]]; [done|].
    rewrite Hs, Hc in Hall. apply Forall_app in Hall as [_ Hall].
    apply Forall_cons in Hall as [Hc' _]. congruence.
Qed.

Lemma re_split_whitespace_no_space in_run s :
  Forall (Forall (λ c, isspace c = false)) (re_split_whitespace in_run s).
Proof.
  revert in_run. induction s as [|c s IH]; intros in_run; cbn.
  - by repeat constructor.
  - destruct (isspace c) eqn:Hc.
    + destruct in_run; [apply IH|]. constructor; [done|apply IH].
    + specialize (IH false). destruct (re_split_whitespace false s) as [|p ps].
      * by repeat constructor.
      * apply Forall_cons in IH as [Hp Hps]. constructor; [by constructor|done].
Qed.

Lemma re_split_whitespace_nonempty s :
  ends_without_space s →
  Forall (λ piece, piece ≠ []) (re_split_whitespace true s)
  ∧ Forall (λ piece, piece ≠ []) (tail (re_split_whitespace false s)).
Proof.
  induction s as [|c s IH]; intros (d & Hlast & Hd); [done|].
  assert (s = [] ∧ c = d ∨ ends_without_space s) as Hs.
  { destruct s as [|c' s']; [left; by injection Hlast|right].
    exists d. by split. }
  cbn. destruct (isspace c) eqn:Hc.
  - destruct Hs as [[_ ->]|Hs]; [congruence|]. cbn.
    destruct (IH Hs) as [H1 _]. by split.
  - assert (Forall (λ piece, piece ≠ []) (tail (re_split_whitespace false s)))
      as Htail.
    { destruct Hs as [[-> _]|Hs]; [by constructor|by apply IH]. }
    destruct (re_split_whitespace false s) as [|p ps]; cbn in *.
    + split; by repeat constructor.
    + split; [by constructor|done].
Qed.

(** A piece is a block of the text: what stands before it is empty or ends
    with whitespace unless the scan began inside a run, and what stands after
    it is empty or begins with whitespace. *)
Lemma re_split_whitespace_infix in_run s piece :
  piece ∈ re_split_whitespace in_run s →
  ∃ before after, s = before ++ piece ++ after.
Proof.
  revert in_run piece. induction s as [|c s IH]; intros in_run piece; cbn.
  - intros ->%list_elem_of_singleton. by exists [], [].
  - assert (∀ b, piece ∈ re_split_whitespace b s →
              ∃ before after, c :: s = before ++ piece ++ after) as Hrest.
    { intros b (bf & af & ->)%IH. by exists (c :: bf), af. }
    destruct (isspace c) eqn:Hc.
    + destruct in_run; [apply Hrest|].
      intros [->|?]%elem_of_cons; [by exists [], (c :: s)|by eapply Hrest].
    + pose proof (IH false) as IH'.
      destruct (re_split_whitespace false s) as [|p ps] eqn:E.
      * intros ->%list_elem_of_singleton. by exists [], s.
      * intros [->|Hin]%elem_of_cons.
        -- destruct (IH' p) as (bf & af & Hs); [left|].
           (* the first piece begins where the text begins *)
           assert (∃ af', s = p ++ af') as [af' ->].
           { clear -E. revert p ps E. induction s as [|d s IHs]; intros p ps; cbn.
             - intros [= <- <-]. by exists [].
             - destruct (isspace d).
               + intros [= <- <-]. by exists (d :: s).
               + destruct (re_split_whitespace false s) as [|q qs] eqn:E'.
                 * intros [= <- <-]. by exists s.
                 * intros [= <- <-]. destruct (IHs q qs eq_refl) as [af' ->].
                   by exists af'. }
           by exists [], af'.
        -- apply (Hrest false). rewrite E. by right.
Qed.

(** X9.  The symbols read from a line are its blocks without whitespace: each
    is non-empty, contains no whitespace and stands in the line as it is; no
    symbol is read exactly from a line of whitespace only, the empty line
    among them. *)
Theorem get_symbols_from_input_blocks line :
  (∀ sym, sym ∈ get_symbols_from_input line →
          sym ≠ []
          ∧ Forall (λ c, isspace c = false) sym
          ∧ ∃ before after, line = before ++ sym ++ after)
  ∧ (get_symbols_from_input line = ∅ ↔ Forall (λ c, isspace c = true) line).
Proof.
  unfold get_symbols_from_input.
  destruct (strip_spec line) as (before & after & Hline & _ & _ & Hstrip).
  case_bool_decide as Hnil.
  { split; [by intros sym Hs%not_elem_of_empty|].
    split; [intros _; by apply strip_nil_iff|done]. }
  destruct Hstrip as [?|[(c & r & Hc & Hsp) Hend]]; [done|].
  assert (Forall (λ piece, piece ≠ []) (re_split_whitespace false (strip line)))
    as Hne.
  { pose proof (re_split_whitespace_nonempty _ Hend) as [_ Htail].
    rewrite Hc in *. cbn in *. rewrite Hsp in *.
    destruct (re_split_whitespace false r) as [|p ps]; cbn in *;
      by repeat constructor. }
  split.
  - intros sym Hsym%elem_of_list_to_set. split_and!.
    + rewrite Forall_forall in Hne. by apply Hne.
    + pose proof (re_split_whitespace_no_space false (strip line)) as Hall.
      rewrite Forall_forall in Hall. by apply Hall.
    + apply re_split_whitespace_infix in Hsym as (bf & af & Hs).
      exists (before ++ bf), (af ++ after). rewrite Hline at 1. rewrite Hs.
      by rewrite <- !app_assoc.
  - split; [|by intros ?%strip_nil_iff].
    intros Hempty. exfalso.
    destruct (re_split_whitespace false (strip line)) as [|p ps] eqn:E.
    + rewrite Hc in E. cbn in E. rewrite Hsp in E.
      by destruct (re_split_whitespace false r).
    + assert (p ∈ (∅ : gset str)) as Habs; [|by apply not_elem_of_empty in Habs].
      rewrite <- Hempty. apply elem_of_list_to_set. left.
Qed.

(** ** The closure of a set of states *)

(** What [_get_epsilon_closure_set] adds for one state. *)
Lemma cached_closure_transitive nfa s t u :
  constructed nfa →
  t ∈ default {[s]} (_epsilon_closures nfa !! s) →
  u ∈ default {[t]} (_epsilon_closures nfa !! t) →
  u ∈ default {[s]} (_epsilon_closures nfa !! s).
Proof.
  intros Hc. rewrite !(constructed_closures _ Hc).
  destruct (decide (s ∈ states nfa)); cbn.
  - intros Ht%elem_of_bfs_closure. destruct (decide (t ∈ states nfa)); cbn.
    + intros Hu%elem_of_bfs_closure. apply elem_of_bfs_closure. by etrans.
    + intros ->%elem_of_singleton. by apply elem_of_bfs_closure.
  - intros ->%elem_of_singleton. by rewrite decide_False by done.
Qed.

Lemma cached_closure_reflexive nfa s :
  constructed nfa → s ∈ default {[s]} (_epsilon_closures nfa !! s).
Proof.
  intros Hc. rewrite (constructed_closures _ Hc). case_decide; cbn.
  - by apply elem_of_bfs_closure.
  - by apply elem_of_singleton.
Qed.

(** X10.  On a constructed automaton [_get_epsilon_closure_set] is a closure
    operator on sets of states, members of the state set or not: the result
    contains the set, grows with the set, is not changed by a second
    application, is the union of the results for the parts of a union, and is
    empty for the empty set only; the object is never changed. *)
Theorem get_epsilon_closure_set_closure_operator st al tr s0 acc nfa w X Y :
  NFA_init st al tr s0 acc = Ok nfa → this w = nfa →
  let cl := λ Z, (_get_epsilon_closure_set Z w).1 in
  X ⊆ cl X
  ∧ (X ⊆ Y → cl X ⊆ cl Y)
  ∧ cl (cl X) = cl X
  ∧ cl (X ∪ Y) = cl X ∪ cl Y
  ∧ (cl X = ∅ ↔ X = ∅)
  ∧ (_get_epsilon_closure_set X w).2 = w.
Proof.
  intros (_ & _ & _ & _ & _ & Hc)%NFA_init_Ok <-. cbn zeta.
  assert (∀ Z, Z ⊆ (_get_epsilon_closure_set Z w).1) as Hext.
  { intros Z s Hs. apply elem_of_get_epsilon_closure_set. exists s.
    split; [done|]. by apply cached_closure_reflexive. }
  split_and!.
  - apply Hext.
  - intros HXY t (s & Hs & Ht)%elem_of_get_epsilon_closure_set.
    apply elem_of_get_epsilon_closure_set. exists s. split; [by apply HXY|done].
  - apply set_eq. intros u. split; [|apply Hext].
    intros (t & (s & Hs & Ht)%elem_of_get_epsilon_closure_set & Hu)
      %elem_of_get_epsilon_closure_set.
    apply elem_of_get_epsilon_closure_set. exists s. split; [done|].
    by eapply cached_closure_transitive.
  - apply set_eq. intros t.
    rewrite elem_of_union, !elem_of_get_epsilon_closure_set.
    setoid_rewrite elem_of_union. naive_solver.
  - split.
    + intros Hempty. apply set_eq. intros s. split; [|by intros ?%not_elem_of_empty].
      intros Hs%Hext. by rewrite Hempty in Hs.
    + intros ->. apply set_eq. intros t.
      rewrite elem_of_get_epsilon_closure_set. split.
      * by intros (s & ?%not_elem_of_empty & _).
      * by intros ?%not_elem_of_empty.
  - done.
Qed.

Lemma get_epsilon_closure_set_closure_operator_witness :
  ({[lit "S"]} : gset state)
    ⊆ (_get_epsilon_closure_set {[lit "S"]} scenario2_world).1
  ∧ (_get_epsilon_closure_set
       (_get_epsilon_closure_set {[lit "S"]} scenario2_world).1 scenario2_world).1
    = (_get_epsilon_closure_set {[lit "S"]} scenario2_world).1
  ∧ (_get_epsilon_closure_set {[lit "S"]} scenario2_world).2 = scenario2_world.
Proof.
  pose proof (get_epsilon_closure_set_closure_operator
                ({[FINAL_STATE_MARKER]} ∪ scenario2_V) scenario2_Σ
                (transitions scenario2_nfa) (lit "S") {[FINAL_STATE_MARKER]}
                scenario2_nfa scenario2_world {[lit "S"]} ∅) as H.
  cbn zeta in H.
  destruct H as (H1 & _ & H3 & _ & _ & H6).
  - vm_compute. reflexivity.
  - reflexivity.
  - split_and!; assumption.
Defined.

(** ** What the constructor checks *)

(** X11.  The constructor returns an automaton exactly when the start state
    is a state, the accept states are states and every symbol of a transition
    is in the alphabet; where a transition leads is not looked at.  The
    automaton then has the attributes given, its closure cache has an entry
    for each state and for nothing else, and the entry of a state is the set
    of states reachable from it through epsilon transitions. *)
Theorem NFA_init_outcome st al tr s0 acc :
  ((∃ nfa, NFA_init st al tr s0 acc = Ok nfa)
   ↔ s0 ∈ st ∧ acc ⊆ st ∧ ∀ s a, is_Some (tr !! (s, Some a)) → a ∈ al)
  ∧ (∀ nfa, NFA_init st al tr s0 acc = Ok nfa →
       states nfa = st ∧ alphabet nfa = al ∧ transitions nfa = tr
       ∧ start_state nfa = s0 ∧ accept_states nfa = acc
       ∧ dom (_epsilon_closures nfa) = st
       ∧ ∀ s c, _epsilon_closures nfa !! s = Some c →
                ∀ t, t ∈ c ↔ rtc (eps_edge tr) s t).
Proof.
  split; [split|].
  - intros [nfa (<- & <- & <- & <- & <- & Hc)%NFA_init_Ok].
    split_and!; [apply Hc..|]. intros s a [T HT]. by eapply (constructed_symbols _ Hc).
  - intros (Hs & Ha & Hsym). apply NFA_init_total; [done..|]. eauto.
  - intros nfa (<- & <- & <- & <- & <- & Hc)%NFA_init_Ok.
    split_and!; try done.
    + apply set_eq. intros s. rewrite elem_of_dom, (constructed_closures _ Hc).
      destruct (decide (s ∈ states nfa)); cbn; split; done.
    + intros s c. rewrite (constructed_closures _ Hc).
      case_decide; [|done]. intros [= <-] t. apply elem_of_bfs_closure.
Qed.

(** ** The console program *)

Lemma respects_ret {A} P E (a : A) : respects P E (mret a).
Proof. intros c Hc. by split. Qed.

Lemma respects_bind {A B} P E (m : IO A) (k : A → IO B) :
  respects P E m → (∀ a, respects P E (k a)) → respects P E (m ≫= k).
Proof.
  intros Hm Hk c Hc. unfold mbind, IO_bind.
  destruct (Hm c Hc) as [H1 H2]. destruct (m c) as [[a| |e] c']; cbn in *.
  - by apply Hk.
  - by split.
  - split; [done|]. intros e' [= <-]. by apply H2.
Qed.

Lemma respects_show P E e : P e → respects P E (show e).
Proof.
  intros He c Hc. split; [|done]. cbn. apply Forall_app. split; [done|].
  by constructor.
Qed.

Lemma respects_return {A} P E : respects P E (return_ : IO A).
Proof. intros c Hc. by split. Qed.

Lemma respects_lines_left P E : respects P E lines_left.
Proof. intros c Hc. by split. Qed.

Lemma respects_lift_bind {A B} P E (r : result A) (k : A → IO B) :
  (∀ a, r = Ok a → respects P E (k a)) →
  (∀ e, r = Raise e → E (Other e)) →
  respects P E (lift r ≫= k).
Proof.
  intros Hk He c Hc. unfold mbind, IO_bind, lift. destruct r as [a|e]; cbn.
  - by apply Hk.
  - split; [done|]. intros e' [= <-]. by apply He.
Qed.

Lemma input_shown prompt c :
  shown (input prompt c).2 = shown c ++ [Prompt prompt].
Proof. unfold input. by destruct (stdin c). Qed.

Lemma input_stdin prompt c :
  (input prompt c).1 = Throw EOFError ∧ stdin c = [] ∧ stdin (input prompt c).2 = []
  ∨ ∃ l, (input prompt c).1 = Next l ∧ stdin c = l :: stdin (input prompt c).2.
Proof. unfold input. destruct (stdin c); cbn; eauto. Qed.

(** The loops end without an exception: the end of the input ends them. *)
Lemma respects_rules_loop P E fuel grammar_lines :
  P (Prompt "> ") → respects P E (rules_loop fuel grammar_lines).
Proof.
  intros HP. revert grammar_lines.
  induction fuel as [|fuel IH]; intros grammar_lines c Hc; [by split|].
  cbn [rules_loop].
  pose proof (input_shown "> " c) as Hs.
  destruct (input_stdin "> " c) as [(Hr & _)|(l & Hr & _)];
    destruct (input "> " c) as [r c']; cbn in Hr, Hs; subst r.
  - cbn. split; [|done]. rewrite Hs. apply Forall_app. split; [done|by constructor].
  - assert (Forall P (shown c')).
    { rewrite Hs. apply Forall_app. split; [done|by constructor]. }
    case_bool_decide; [by split|]. by apply IH.
Qed.

(** The bound that [main] gives the loop is never used up: any bound above
    the number of lines left gives the same run. *)
Lemma rules_loop_fuel fuel fuel' grammar_lines c :
  length (stdin c) < fuel → length (stdin c) < fuel' →
  rules_loop fuel grammar_lines c = rules_loop fuel' grammar_lines c.
Proof.
  revert fuel' grammar_lines c.
  induction fuel as [|fuel IH]; intros fuel' grammar_lines [lines events] H1 H2;
    [lia|].
  destruct fuel' as [|fuel']; [lia|]. cbn [rules_loop].
  destruct lines as [|l rest]; [done|]. cbn [input stdin shown] in *.
  case_bool_decide; [done|]. apply IH; cbn in *; lia.
Qed.

(** A string over the alphabet makes [accepts] print nothing. *)
Lemma accepts_loop_valid_quiet input cur w :
  Forall (λ c, [c] ∈ alphabet (this w)) input →
  stdout (accepts_loop input cur w).2 = stdout w.
Proof.
  intros Hvalid. revert cur.
  induction Hvalid as [|c rest Hc Hrest IH]; intros cur; cbn [accepts_loop].
  - by run_M.
  - run_M. rewrite bool_decide_eq_false_2 by auto. run_M.
    case_bool_decide; [by run_M|]. apply IH.
Qed.

(** The line of one string: the object is left as it is, and one line is
    written, which is no warning. *)
Lemma check_string_run input_string nfa :
  ∃ o, check_string input_string {| this := nfa; stdout := [] |}
       = (tt, {| this := nfa; stdout := [o] |})
       ∧ (if bool_decide (Forall (λ c, [c] ∈ alphabet nfa) input_string)
          then o = Verdict input_string
                     (accepts input_string {| this := nfa; stdout := [] |}).1
          else ∃ invalid_chars, o = RejectedInvalid input_string invalid_chars).
Proof.
  unfold check_string. run_M.
  destruct (forallb _ input_string) eqn:Hall; cbn [negb].
  - assert (Forall (λ c, [c] ∈ alphabet nfa) input_string) as Hvalid.
    { apply Forall_forall. intros c Hc%list_elem_of_In.
      rewrite forallb_forall in Hall. by apply (bool_decide_eq_true_1 _ (Hall c Hc)). }
    rewrite bool_decide_eq_true_2 by done. eexists. split; [|reflexivity].
    run_M.
    pose proof (accepts_frame input_string {| this := nfa; stdout := [] |}) as Hf.
    cbn [this stdout] in Hf. cbn zeta in Hf.
    assert (stdout (accepts input_string {| this := nfa; stdout := [] |}).2 = [])
      as Hq.
    { unfold accepts. run_M. by rewrite accepts_loop_valid_quiet. }
    rewrite Hq in Hf. rewrite Hf. cbn [fst snd]. unfold print. by cbn.
  - rewrite bool_decide_eq_false_2.
    + eexists. split; [reflexivity|]. eauto.
    + intros Hvalid. apply not_true_iff_false in Hall. apply Hall.
      apply forallb_forall. intros c Hc%list_elem_of_In.
      rewrite Forall_forall in Hvalid. by apply bool_decide_eq_true_2, Hvalid.
Qed.

Lemma call_check_string_run input_string nfa c :
  ∃ o, call (check_string input_string) nfa c
       = (Next (tt, nfa),
          {| stdin := stdin c; shown := shown c ++ [Stdout (Answer o)] |})
       ∧ (if bool_decide (Forall (λ c, [c] ∈ alphabet nfa) input_string)
          then o = Verdict input_string
                     (accepts input_string {| this := nfa; stdout := [] |}).1
          else ∃ invalid_chars, o = RejectedInvalid input_string invalid_chars).
Proof.
  destruct (check_string_run input_string nfa) as (o & Hrun & Ho).
  exists o. split; [|done]. unfold call. by rewrite Hrun.
Qed.

Lemma strings_loop_break_test (input_string : str) :
  bool_decide (input_string = []) && bool_decide (input_string ≠ []) = false.
Proof. by repeat case_bool_decide. Qed.

Lemma respects_strings_loop P E fuel nfa :
  P (Prompt "String? ") → (∀ o, ¬ is_warning o → P (Stdout (Answer o))) →
  respects P E (strings_loop fuel nfa).
Proof.
  intros HP Ho. revert nfa.
  induction fuel as [|fuel IH]; intros nfa c Hc; [by split|].
  cbn [strings_loop].
  pose proof (input_shown "String? " c) as Hs.
  destruct (input_stdin "String? " c) as [(Hr & _)|(l & Hr & _)];
    destruct (input "String? " c) as [r c']; cbn in Hr, Hs; subst r.
  - cbn. split; [|done]. rewrite Hs. apply Forall_app. split; [done|by constructor].
  - assert (Forall P (shown c')) as Hc'.
    { rewrite Hs. apply Forall_app. split; [done|by constructor]. }
    rewrite strings_loop_break_test.
    destruct (call_check_string_run l nfa c') as (o & Hrun & Hcase).
    unfold mbind, IO_bind. rewrite Hrun. apply IH. cbn.
    apply Forall_app. split; [done|]. constructor; [|done]. apply Ho.
    intros (sym & alph & ->). case_bool_decide; [done|]. by destruct Hcase.
Qed.

(** With declarations that pass the checks of [main], the parser can only
    raise the error of a line. *)
Lemma parse_grammar_Raise lower lines V Σ start_symbol e :
  parse_grammar lower lines V Σ start_symbol = Raise e →
  V ≠ ∅ → start_symbol ∈ V → Σ ## V →
  ∃ m, e = ValueError m ∧ is_Some (message_line m).
Proof.
  unfold parse_grammar. intros He HV HS HΣ. revert He.
  rewrite !bool_decide_eq_false_2 by auto.
  destruct (parse_lines lower V Σ 1 lines ([], ∅)) as [st|e'] eqn:E; cbn; [done|].
  intros [= <-]. apply parse_lines_Raise in E
    as (i & line & st_i & m & _ & _ & _ & -> & Hm).
  exists m. by rewrite Hm.
Qed.

(** A parsed grammar builds, unless the marker is a declared non-terminal. *)
Lemma build_parsed_outcome lower lines V Σ start_symbol g :
  parse_grammar lower lines V Σ start_symbol = Ok g →
  if bool_decide (FINAL_STATE_MARKER ∈ V)
  then build_nfa_from_grammar g V Σ start_symbol = Raise (ValueError MarkerClash)
  else ∃ nfa, build_nfa_from_grammar g V Σ start_symbol = Ok nfa.
Proof.
  intros Hp. case_bool_decide as HF.
  - unfold build_nfa_from_grammar. by rewrite bool_decide_eq_true_2.
  - pose proof (parse_grammar_declarations _ _ _ _ _ _ Hp) as (_ & HS & _).
    apply build_nfa_from_grammar_total; [|done..]. by eapply parse_grammar_legal.
Qed.

#[local] Arguments get_symbols_from_input : simpl never.
#[local] Arguments strip : simpl never.
#[local] Arguments parse_grammar : simpl never.
#[local] Arguments build_nfa_from_grammar : simpl never.
#[local] Arguments check_string : simpl never.

(** Running the statements of [main]. *)
Lemma IO_bind_assoc {A B C} (m : IO A) (f : A → IO B) (g : B → IO C) c :
  ((m ≫= f) ≫= g) c = (m ≫= λ a, f a ≫= g) c.
Proof. unfold mbind, IO_bind. by destruct (m c) as [[a| |e] c']. Qed.

Lemma IO_ret_bind {A B} (a : A) (k : A → IO B) c : (mret a ≫= k) c = k a c.
Proof. done. Qed.

Lemma show_bind {B} e (k : unit → IO B) lines events :
  (show e ≫= k) {| stdin := lines; shown := events |}
  = k tt {| stdin := lines; shown := events ++ [e] |}.
Proof. done. Qed.

Lemma input_bind_nil {B} prompt (k : str → IO B) events :
  (input prompt ≫= k) {| stdin := []; shown := events |}
  = (Throw EOFError, {| stdin := []; shown := events ++ [Prompt prompt] |}).
Proof. done. Qed.

Lemma input_bind_cons {B} prompt (k : str → IO B) l rest events :
  (input prompt ≫= k) {| stdin := l :: rest; shown := events |}
  = k l {| stdin := rest; shown := events ++ [Prompt prompt] |}.
Proof. done. Qed.

Lemma lines_left_bind {B} (k : nat → IO B) lines events :
  (lines_left ≫= k) {| stdin := lines; shown := events |}
  = k (S (length lines)) {| stdin := lines; shown := events |}.
Proof. done. Qed.

Lemma lift_bind_Ok {A B} (a : A) (k : A → IO B) c : (lift (Ok a) ≫= k) c = k a c.
Proof. done. Qed.

Lemma lift_bind_Raise {A B} e (k : A → IO B) c :
  (lift (Raise e) ≫= k) c = (Throw (Other e), c).
Proof. done. Qed.

Lemma return_run {A} c : (return_ : IO A) c = (Return, c).
Proof. done. Qed.

(** Runs the statements of the console program up to the next test. *)
Ltac run_IO :=
  unfold print_line, print_stderr;
  repeat first
    [ rewrite IO_bind_assoc | rewrite IO_ret_bind | rewrite show_bind
    | rewrite input_bind_nil | rewrite input_bind_cons | rewrite lines_left_bind
    | rewrite lift_bind_Ok | rewrite lift_bind_Raise | rewrite return_run
    | progress cbn [fst snd stdin shown] ].

(** Splits a goal on the statements of the console program. *)
Ltac respects_step :=
  first
    [ apply respects_ret | apply respects_return | apply respects_lines_left
    | apply respects_rules_loop | apply respects_strings_loop
    | apply respects_show
    | apply respects_bind; [|intros ?] ].

(** What the statements after the five checks of the declarations show and
    raise. *)
Lemma main_try_respects lower lines events :
  let n := length lines in
  let r := main_try lower {| stdin := lines; shown := events |} in
  Forall (expected_event n) events →
  Forall (expected_event n) (shown r.2)
  ∧ ∀ e, r.1 = Throw e →
         e = EOFError ∧ n < 3
         ∨ ∃ m, e = Other (ValueError m)
                ∧ (m = MarkerClash ∨ is_Some (message_line m)).
Proof.
  intros n r Hev. subst r. unfold main_try, input_symbols.
  assert (∀ e, Forall (expected_event n) (events ++ [Prompt e])) as Hp1.
  { intros e. apply Forall_app. split; [done|by constructor]. }
  destruct lines as [|l1 [|l2 [|l3 rest]]].
  - run_IO. split; [done|]. intros e [= <-]. left. split; [done|cbn; lia].
  - run_IO. case_bool_decide.
    { run_IO. split; [|done]. apply Forall_app. split; [done|by constructor]. }
    run_IO. split; [|intros e [= <-]; left; split; [done|cbn; lia]].
    apply Forall_app. split; [done|by constructor].
  - run_IO. case_bool_decide.
    { run_IO. split; [|done]. apply Forall_app. split; [done|by constructor]. }
    run_IO. case_bool_decide.
    { run_IO. split; [|done].
      repeat (apply Forall_app; split; [|by constructor]). done. }
    run_IO. split; [|intros e [= <-]; left; split; [done|cbn; lia]].
    repeat (apply Forall_app; split; [|by constructor]). done.
  - run_IO. case_bool_decide as HΣ.
    { run_IO. split; [|done]. apply Forall_app. split; [done|by constructor]. }
    run_IO. case_bool_decide as HV.
    { run_IO. split; [|done].
      repeat (apply Forall_app; split; [|by constructor]). done. }
    run_IO. case_bool_decide as HS.
    { run_IO. split; [|done].
      repeat (apply Forall_app; split; [|by constructor]). done. }
    case_bool_decide as Hin.
    { run_IO. split; [|done].
      repeat (apply Forall_app; split; [|by constructor]). done. }
    case_bool_decide as Hdisj.
    { run_IO. split; [|done].
      repeat (apply Forall_app; split; [|constructor; [|done]]); try done.
      cbn. intros Hempty. apply Hdisj. set_solver. }
    assert (strip l3 ∈ get_symbols_from_input l2) as Hin' by stable.
    assert (get_symbols_from_input l1 ## get_symbols_from_input l2) as Hdisj'
      by stable.
    lazymatch goal with
    | |- Forall _ (shown (?prog ?c).2) ∧ _ =>
        cut (respects (expected_event n)
               (λ e, ∃ msg, e = Other (ValueError msg)
                            ∧ (msg = MarkerClash ∨ is_Some (message_line msg)))
               prog);
          [intros Hr; destruct (Hr c) as [H1 H2];
           [cbn; repeat (apply Forall_app; split; [|by constructor]); done|];
           split; [done|]; intros e He; right; by apply H2|]
    end.
    repeat (apply respects_bind; [by apply respects_show|intros _]).
    apply respects_bind; [apply respects_lines_left|intros fuel].
    apply respects_bind; [by apply respects_rules_loop|intros grammar_lines].
    case_bool_decide.
    { apply respects_bind; [by apply respects_show|intros _].
      apply respects_return. }
    apply respects_lift_bind.
    2:{ intros e He. apply parse_grammar_Raise in He as (m & -> & Hm); eauto. }
    intros grammar_dict Hparse.
    repeat (apply respects_bind; [by apply respects_show|intros _]).
    apply respects_lift_bind.
    2:{ intros e He. pose proof (build_parsed_outcome _ _ _ _ _ _ Hparse) as Hb.
        case_bool_decide.
        - rewrite Hb in He. injection He as <-. eauto.
        - destruct Hb as [nfa Hb]. congruence. }
    intros nfa Hbuild.
    repeat (apply respects_bind; [by apply respects_show|intros _]).
    apply respects_bind; [apply respects_lines_left|intros fuel'].
    by apply respects_strings_loop.
Qed.

Lemma main_events lower lines :
  Forall (expected_event (length lines)) (run_main lower lines).
Proof.
  unfold run_main, main. run_IO. unfold try_except.
  lazymatch goal with
  | |- context [main_try lower {| stdin := lines; shown := ?events |}] =>
      destruct (main_try_respects lower lines events) as [Hshown Hraise];
        [by repeat constructor|]
  end.
  cbn zeta in Hshown, Hraise.
  destruct (main_try lower _) as [[[]| |e] c']; cbn [fst snd] in *.
  - run_IO. repeat (apply Forall_app; split; [|by constructor]). done.
  - done.
  - destruct (Hraise e eq_refl) as [[-> Hn]|(m & -> & Hm)]; run_IO;
      repeat (apply Forall_app; split; [|by constructor]); done.
Qed.


(** X13.  Whatever is typed, the lines that [main] writes to the standard
    error are those of [expected_complaint]: the five errors of its own
    checks of the declarations, the error of a rule, the clash of a
    non-terminal with the marker, and the unexpected end of the input before
    the three declarations are read.  The three declaration errors of
    [parse_grammar], the errors of the constructor and the [RuntimeError] of
    the builder are never reported. *)
Theorem main_complaints lower lines :
  Forall (expected_complaint (length lines)) (complaints (run_main lower lines)).
Proof.
  pose proof (main_events lower lines) as Hev. unfold complaints.
  induction Hev as [|e events He _ IH]; [constructor|].
  destruct e as [p|l|l]; cbn; try done. by constructor.
Qed.

(** The rules are the lines before the first empty line. *)
Lemma rules_loop_run fuel grammar_lines rules rest events :
  Forall (λ l, l ≠ []) rules → length rules < fuel →
  rules_loop fuel grammar_lines {| stdin := rules ++ [] :: rest; shown := events |}
  = (Next (grammar_lines ++ rules),
     {| stdin := rest;
        shown := events ++ replicate (S (length rules)) (Prompt "> ") |}).
Proof.
  intros Hrules. revert fuel grammar_lines events.
  induction Hrules as [|l rules Hl _ IH]; intros fuel grammar_lines events Hfuel;
    (destruct fuel as [|fuel]; [cbn in Hfuel; lia|]); cbn [rules_loop].
  - cbn. by rewrite app_nil_r.
  - cbn [app input stdin shown]. rewrite bool_decide_eq_false_2 by done.
    rewrite IH by (cbn in Hfuel; lia).
    by rewrite <- !app_assoc.
Qed.

(** Every line left is answered, the empty ones too: the loop ends at the
    end of the input. *)
Lemma strings_loop_run fuel nfa queries events :
  length queries < fuel →
  strings_loop fuel nfa {| stdin := queries; shown := events |}
  = (Next tt,
     {| stdin := [];
        shown := events
                 ++ (queries ≫= λ input_string,
                       Prompt "String? "
                       :: ((λ o, Stdout (Answer o))
                           <$> stdout (check_string input_string
                                         {| this := nfa; stdout := [] |}).2))
                 ++ [Prompt "String? "] |}).
Proof.
  revert fuel events.
  induction queries as [|q queries IH]; intros fuel events Hfuel;
    (destruct fuel as [|fuel]; [cbn in Hfuel; lia|]); cbn [strings_loop].
  - done.
  - cbn [input stdin shown]. rewrite strings_loop_break_test.
    destruct (check_string_run q nfa) as (o & Hrun & _).
    unfold mbind at 1. unfold IO_bind, call. rewrite Hrun. cbn [stdin shown this stdout].
    rewrite IH by (cbn in Hfuel; lia). cbn [mbind list_bind fmap list_fmap app].
    rewrite Hrun. cbn [snd stdout fmap list_fmap app]. by rewrite <- !app_assoc.
Qed.

Lemma get_symbols_from_input_nonempty line sym :
  sym ∈ get_symbols_from_input line → sym ≠ [].
Proof.
  unfold get_symbols_from_input.
  destruct (strip_spec line) as (before & after & Hline & _ & _ & Hstrip).
  case_bool_decide as Hnil; [by intros ?%not_elem_of_empty|].
  destruct Hstrip as [?|[(c & r & Hc & Hsp) Hend]]; [done|].
  pose proof (re_split_whitespace_nonempty _ Hend) as [_ Htail].
  rewrite Hc in *. cbn in *. rewrite Hsp in *.
  intros Hsym%elem_of_list_to_set.
  destruct (re_split_whitespace false r) as [|p ps]; cbn in *.
  - by apply list_elem_of_singleton in Hsym as ->.
  - apply elem_of_cons in Hsym as [->|Hsym]; [done|].
    rewrite Forall_forall in Htail. by apply Htail.
Qed.

(** The verdict on the automaton built from a parsed grammar. *)
Lemma parsed_built_verdict lower lines V Σ start_symbol grammar_dict nfa
    input_string :
  parse_grammar lower lines V Σ start_symbol = Ok grammar_dict →
  build_nfa_from_grammar grammar_dict V Σ start_symbol = Ok nfa →
  alphabet nfa = Σ
  ∧ ((accepts input_string {| this := nfa; stdout := [] |}).1 = true
     ↔ derives grammar_dict start_symbol input_string).
Proof.
  intros Hp Hb.
  destruct (built_constructed_within _ _ _ _ _ _ _ Hp Hb) as (Hc & _ & _ & _ & Htg).
  pose proof (build_nfa_from_grammar_Ok _ _ _ _ _ Hb) as (HF & tr & _ & Hinit).
  apply NFA_init_Ok in Hinit as (_ & Hal & _ & Hs0 & _). split; [done|].
  rewrite accepts_language_constructed
    by (try done; by apply targets_destinations_known).
  cbn [this]. rewrite Hs0, (built_accepts_from _ _ _ _ _ _ _ Hb)
    by by eapply parsed_marker_free.
  apply parse_grammar_declarations in Hp as (_ & HS & _).
  split; [|by right]. intros [[-> _]|?]; done.
Qed.

Lemma IO_bind_Next {A B} (m : IO A) (k : A → IO B) c a c' :
  m c = (Next a, c') → (m ≫= k) c = k a c'.
Proof. unfold mbind, IO_bind. by intros ->. Qed.

Lemma answers_app events events' :
  answers (events ++ events') = answers events ++ answers events'.
Proof. apply omap_app. Qed.

Lemma complaints_app events events' :
  complaints (events ++ events') = complaints events ++ complaints events'.
Proof. apply omap_app. Qed.

Lemma answers_replicate_Prompt n text : answers (replicate n (Prompt text)) = [].
Proof. by induction n. Qed.

Lemma complaints_replicate_Prompt n text :
  complaints (replicate n (Prompt text)) = [].
Proof. by induction n. Qed.

Lemma answers_strings_loop nfa queries :
  answers (queries ≫= λ input_string,
             Prompt "String? "
             :: ((λ o, Stdout (Answer o))
                 <$> stdout (check_string input_string
                               {| this := nfa; stdout := [] |}).2))
  = queries ≫= λ input_string,
      stdout (check_string input_string {| this := nfa; stdout := [] |}).2.
Proof.
  induction queries as [|q queries IH]; [done|].
  cbn [mbind list_bind]. rewrite answers_app, IH. f_equal.
  destruct (check_string_run q nfa) as (o & -> & _). done.
Qed.

Lemma complaints_strings_loop nfa queries :
  complaints (queries ≫= λ input_string,
                Prompt "String? "
                :: ((λ o, Stdout (Answer o))
                    <$> stdout (check_string input_string
                                  {| this := nfa; stdout := [] |}).2))
  = [].
Proof.
  induction queries as [|q queries IH]; [done|].
  cbn [mbind list_bind]. rewrite complaints_app, IH.
  destruct (check_string_run q nfa) as (o & -> & _). done.
Qed.

(** The body of the [try] statement on such a session. *)
Lemma main_try_session lower terminals_line non_terminals_line start_line rules
    queries grammar_dict nfa events :
  get_symbols_from_input terminals_line ≠ ∅ →
  rules ≠ [] → Forall (λ l, l ≠ []) rules →
  parse_grammar lower rules (get_symbols_from_input non_terminals_line)
    (get_symbols_from_input terminals_line) (strip start_line)
  = Ok grammar_dict →
  build_nfa_from_grammar grammar_dict (get_symbols_from_input non_terminals_line)
    (get_symbols_from_input terminals_line) (strip start_line)
  = Ok nfa →
  ∃ c', main_try lower
          {| stdin := terminals_line :: non_terminals_line :: start_line
                      :: rules ++ [] :: queries;
             shown := events |}
        = (Next tt, c')
        ∧ answers (shown c')
          = answers events
            ++ (queries ≫= λ input_string,
                  stdout (check_string input_string
                            {| this := nfa; stdout := [] |}).2)
        ∧ complaints (shown c') = complaints events.
Proof.
  intros HΣ Hrules Hlines Hparse Hbuild.
  pose proof (parse_grammar_declarations _ _ _ _ _ _ Hparse) as (HV & HS & Hdisj).
  pose proof (get_symbols_from_input_nonempty _ _ HS) as Hstart.
  eexists. split.
  - unfold main_try, input_symbols. run_IO.
    rewrite (bool_decide_eq_false_2 (_ = ∅)) by done. run_IO.
    rewrite (bool_decide_eq_false_2 (_ = ∅)) by done. run_IO.
    rewrite (bool_decide_eq_false_2 (_ = [])) by done.
    rewrite (bool_decide_eq_false_2 (_ ∉ _)) by (by intros []).
    rewrite (bool_decide_eq_false_2 (¬ _ ## _)) by (by intros []).
    run_IO.
    erewrite (IO_bind_Next (rules_loop _ _));
      [|apply rules_loop_run; [done|rewrite length_app; cbn; lia]].
    cbn [app]. rewrite (bool_decide_eq_false_2 (rules = [])) by done.
    rewrite Hparse. run_IO. rewrite Hbuild. run_IO.
    rewrite strings_loop_run by lia. reflexivity.
  - cbn [shown]. rewrite !answers_app, !complaints_app.
    rewrite answers_strings_loop, complaints_strings_loop.
    rewrite answers_replicate_Prompt, complaints_replicate_Prompt.
    cbn. by rewrite !app_nil_r.
Qed.

(** X14.  A session that declares the symbols, types rules that parse, an
    empty line and then strings: [main] answers every string typed after the
    rules, the empty ones too, in order; a string with a symbol outside the
    terminals is rejected as such, any other string is accepted exactly when
    the grammar derives it from the start symbol; nothing is written to the
    standard error and the last line is the one that says goodbye. *)
Theorem main_answers lower terminals_line non_terminals_line start_line rules
    queries grammar_dict :
  get_symbols_from_input terminals_line ≠ ∅ →
  rules ≠ [] → Forall (λ l, l ≠ []) rules →
  parse_grammar lower rules (get_symbols_from_input non_terminals_line)
    (get_symbols_from_input terminals_line) (strip start_line)
  = Ok grammar_dict →
  FINAL_STATE_MARKER ∉ get_symbols_from_input non_terminals_line →
  Forall2 (λ input_string o,
             (over_alphabet (get_symbols_from_input terminals_line) input_string
              ∧ ∃ is_accepted,
                  o = Verdict input_string is_accepted
                  ∧ (is_accepted = true
                     ↔ derives grammar_dict (strip start_line) input_string))
             ∨ (¬ over_alphabet (get_symbols_from_input terminals_line)
                    input_string
                ∧ ∃ invalid_chars,
                    o = RejectedInvalid input_string invalid_chars))
    queries
    (answers (run_main lower
                (terminals_line :: non_terminals_line :: start_line
                 :: rules ++ [] :: queries)))
  ∧ complaints (run_main lower
                  (terminals_line :: non_terminals_line :: start_line
                   :: rules ++ [] :: queries)) = []
  ∧ last (run_main lower
            (terminals_line :: non_terminals_line :: start_line
             :: rules ++ [] :: queries))
    = Some (Stdout (Say "Exiting.")).
Proof.
  intros HΣ Hrules Hlines Hparse Hmarker.
  pose proof (parse_grammar_declarations _ _ _ _ _ _ Hparse) as (HV & HS & Hdisj).
  destruct (build_nfa_from_grammar_total grammar_dict _ _ _
              (parse_grammar_legal _ _ _ _ _ _ Hparse) HS Hmarker) as [nfa Hbuild].
  unfold run_main, main. run_IO. unfold try_except.
  lazymatch goal with
  | |- context [main_try lower {| stdin := _; shown := ?events |}] =>
      destruct (main_try_session lower _ _ _ _ queries _ _ events
                  HΣ Hrules Hlines Hparse Hbuild) as ([lines' events'] & -> & Ha & Hc)
  end.
  run_IO. unfold show. cbn [fst snd shown stdin]. cbn [shown] in Ha, Hc.
  rewrite !answers_app, !complaints_app, Ha, Hc. cbn. rewrite !app_nil_r.
  split_and!; [|done|by rewrite last_snoc].
  clear Ha Hc. induction queries as [|q queries IH]; [constructor|].
  cbn [mbind list_bind].
  destruct (check_string_run q nfa) as (o & -> & Ho). cbn [snd stdout app].
  destruct (parsed_built_verdict _ _ _ _ _ _ _ q Hparse Hbuild) as [Hal Hverdict].
  rewrite Hal in Ho. constructor; [|done].
  case_bool_decide as Hvalid.
  - left. split; [done|]. eexists. split; [done|]. done.
  - right. by split.
Qed.

Lemma main_answers_witness :
  Forall2 (λ input_string o,
             (over_alphabet (get_symbols_from_input (lit "a b")) input_string
              ∧ ∃ is_accepted,
                  o = Verdict input_string is_accepted
                  ∧ (is_accepted = true
                     ↔ derives scenario1_grammar (strip (lit "S")) input_string))
             ∨ (¬ over_alphabet (get_symbols_from_input (lit "a b")) input_string
                ∧ ∃ invalid_chars,
                    o = RejectedInvalid input_string invalid_chars))
    session_queries (answers (run_main ascii_lower session_lines))
  ∧ complaints (run_main ascii_lower session_lines) = []
  ∧ last (run_main ascii_lower session_lines) = Some (Stdout (Say "Exiting.")).
Proof.
  apply (main_answers ascii_lower (lit "a b") (lit "S A") (lit "S")
           scenario1_lines session_queries scenario1_grammar).
  - apply (bool_decide_unpack _). vm_compute. exact I.
  - discriminate.
  - repeat constructor; discriminate.
  - vm_compute. reflexivity.
  - apply (bool_decide_unpack _). vm_compute. exact I.
Defined.

